(** * Meta-tag rewriting edge middleware (src/middleware.js)

    A shallow embedding of the Vercel edge middleware that serves
    [dist/_empty.html] with per-user or per-concept Open Graph and Twitter
    meta tags, and of the substitution it folds over the template.

    Strings are lists of characters.  [request.url] is a serialised URL and
    therefore ASCII, which is why [ascii] is enough for the case mapping. *)

From Stdlib Require Import List Ascii String Bool Arith Lia.
Import ListNotations.

Set Warnings "-register-all".

(* ===================================================================== *)
(** ** JavaScript strings *)
(* ===================================================================== *)

Definition text := list ascii.

(** A string literal of the source. *)
Definition lit (s : string) : text := list_ascii_of_string s.

(** The double-quote character. *)
Definition dquote : ascii := ascii_of_nat 34.

(** A literal in which every apostrophe stands for a double quote, for
    writing HTML fragments. *)
Definition html (s : string) : text :=
  map (fun c => if Ascii.eqb c "'" then dquote else c) (lit s).

Fixpoint text_eqb (a b : text) : bool :=
  match a, b with
  | [], [] => true
  | x :: a', y :: b' => Ascii.eqb x y && text_eqb a' b'
  | _, _ => false
  end.

(** [strip_prefix p s] is [Some rest] when [s = p ++ rest]. *)
Fixpoint strip_prefix (p s : text) : option text :=
  match p with
  | [] => Some s
  | x :: p' =>
      match s with
      | [] => None
      | y :: s' => if Ascii.eqb x y then strip_prefix p' s' else None
      end
  end.

Fixpoint take_while (f : ascii -> bool) (s : text) : text :=
  match s with
  | [] => []
  | c :: s' => if f c then c :: take_while f s' else []
  end.

Fixpoint drop_while (f : ascii -> bool) (s : text) : text :=
  match s with
  | [] => []
  | c :: s' => if f c then drop_while f s' else s
  end.

(** [s.split(sep)] for a one-character separator: never the empty list. *)
Fixpoint split (sep : ascii) (s : text) : list text :=
  match s with
  | [] => [[]]
  | c :: s' =>
      if Ascii.eqb c sep then [] :: split sep s'
      else match split sep s' with
           | w :: ws => (c :: w) :: ws
           | [] => [[c]]
           end
  end.

(** [words.join(sep)] *)
Fixpoint join (sep : text) (ws : list text) : text :=
  match ws with
  | [] => []
  | [w] => w
  | w :: ws' => w ++ sep ++ join sep ws'
  end.

Definition is_lower (c : ascii) : bool :=
  (97 <=? nat_of_ascii c) && (nat_of_ascii c <=? 122).

Definition is_upper (c : ascii) : bool :=
  (65 <=? nat_of_ascii c) && (nat_of_ascii c <=? 90).

Definition upper_char (c : ascii) : ascii :=
  if is_lower c then ascii_of_nat (nat_of_ascii c - 32) else c.

Definition lower_char (c : ascii) : ascii :=
  if is_upper c then ascii_of_nat (nat_of_ascii c + 32) else c.

Definition toUpperCase (s : text) : text := map upper_char s.
Definition toLowerCase (s : text) : text := map lower_char s.

(** [s.charAt(0)]: the first character as a string, empty when [s] is. *)
Definition charAt0 (s : text) : text :=
  match s with
  | [] => []
  | c :: _ => [c]
  end.

(** [s.slice(1)] *)
Definition slice1 (s : text) : text := tl s.

(* ===================================================================== *)
(** ** The two route patterns *)
(* ===================================================================== *)

(** The character class [[^/?]]. *)
Definition segment_char (c : ascii) : bool :=
  negb (Ascii.eqb c "/") && negb (Ascii.eqb c "?").

(** [s.match(/<prefix>([^/?]+)/)] for a literal [prefix]: the leftmost
    position at which [prefix] is followed by at least one segment
    character; the group is the longest run of them.  The result is the
    pair of the whole match and of group 1, [None] for [null]. *)
Fixpoint match_path (prefix s : text) : option (text * text) :=
  match s with
  | [] => None
  | _ :: s' =>
      match strip_prefix prefix s with
      | Some rest =>
          match take_while segment_char rest with
          | [] => match_path prefix s'
          | seg => Some (prefix ++ seg, seg)
          end
      | None => match_path prefix s'
      end
  end.

Definition users_pattern : text := lit "/users/".
Definition concepts_pattern : text := lit "/concepts/".

(** [m[1]] of a successful match. *)
Definition group1 (m : text * text) : text := snd m.

(* ===================================================================== *)
(** ** JavaScript values coming out of [res.json()] *)
(* ===================================================================== *)

(** A parsed JSON document.  A number is carried by its rendering. *)
Inductive json : Type :=
| JNull
| JBool (b : bool)
| JNumber (repr : text)
| JString (s : text)
| JArray (items : list json)
| JObject (fields : list (text * json)).

Inductive js_value : Type :=
| Undefined
| Of (j : json).

Definition Str (s : text) : js_value := Of (JString s).

Inductive js_error : Type :=
| NetworkError
| SyntaxError
| TypeError.

(** Own property of a parsed object: the last binding of a repeated key
    wins, a missing key reads as [undefined]. *)
Fixpoint own_property (fields : list (text * json)) (key : text) : js_value :=
  match fields with
  | [] => Undefined
  | (k, v) :: rest =>
      match own_property rest key with
      | Of j => Of j
      | Undefined => if text_eqb k key then Of v else Undefined
      end
  end.

(** [data.key] for the keys [title] and [description_markdown], which no
    primitive wrapper or array prototype defines: reading them off [null]
    throws, off any other non-object gives [undefined]. *)
Definition get_property (data : json) (key : text) : js_error + js_value :=
  match data with
  | JNull => inl TypeError
  | JObject fields => inr (own_property fields key)
  | _ => inr Undefined
  end.

(* ===================================================================== *)
(** ** Console, mutable locals and exceptions *)
(* ===================================================================== *)

Inductive console_arg : Type :=
| AText (t : text)
| AError (e : js_error).

Inductive log_entry : Type :=
| console_error (args : list console_arg)
| console_log (args : list console_arg).

(** What one invocation can change: the console, and the two [let]
    variables of the concept branch, which the [try] block assigns. *)
Record state : Type := mkState {
  console : list log_entry;
  conceptTitle : js_value;
  conceptDescription : js_value
}.

Definition initial : state :=
  {| console := []; conceptTitle := Undefined; conceptDescription := Undefined |}.

(** A computation either throws or returns; assignments made before a
    throw stay. *)
Definition M (A : Type) : Type := state -> state * (js_error + A).

Definition ret {A} (x : A) : M A := fun s => (s, inr x).

Definition bind {A B} (m : M A) (k : A -> M B) : M B :=
  fun s =>
    match m s with
    | (s', inr x) => k x s'
    | (s', inl e) => (s', inl e)
    end.

Definition throw_or {A} (r : js_error + A) : M A := fun s => (s, r).

Definition try_catch {A} (body : M A) (handler : js_error -> M A) : M A :=
  fun s =>
    match body s with
    | (s', inr x) => (s', inr x)
    | (s', inl e) => handler e s'
    end.

Definition log (entry : log_entry) : M unit :=
  fun s => ({| console := console s ++ [entry];
               conceptTitle := conceptTitle s;
               conceptDescription := conceptDescription s |}, inr tt).

Definition set_conceptTitle (v : js_value) : M unit :=
  fun s => ({| console := console s;
               conceptTitle := v;
               conceptDescription := conceptDescription s |}, inr tt).

Definition set_conceptDescription (v : js_value) : M unit :=
  fun s => ({| console := console s;
               conceptTitle := conceptTitle s;
               conceptDescription := v |}, inr tt).

Definition get_conceptTitle : M js_value := fun s => (s, inr (conceptTitle s)).
Definition get_conceptDescription : M js_value :=
  fun s => (s, inr (conceptDescription s)).

Declare Scope js_scope.
Delimit Scope js_scope with js.
Notation "x <- m ;; k" := (bind m (fun x => k))
  (at level 61, m at next level, right associativity) : js_scope.
Notation "m ;; k" := (bind m (fun _ => k))
  (at level 61, right associativity) : js_scope.
Local Open Scope js_scope.

(* ===================================================================== *)
(** ** The middleware *)
(* ===================================================================== *)

Record request : Type := { url : text }.

Record response : Type := {
  status : nat;
  headers : list (text * text);
  body : text
}.

(** [new Response(body, { headers })]: the status defaults to 200. *)
Definition new_Response (b : text) (h : list (text * text)) : response :=
  {| status := 200; headers := h; body := b |}.

(** What the invocation hands back: [next(request)] or its own response. *)
Inductive outcome : Type :=
| Next (r : request)
| Respond (r : response).

(** The two reads of the outside world: the concept-data request with
    [res.json()], and the template request with [res.text()]. *)
Record env : Type := {
  fetch_json : text -> js_error + json;
  fetch_index : js_error + text
}.

Record page : Type := {
  pageImageUrl : js_value;
  pageTitle : js_value;
  pageDescription : js_value
}.

(** Lines 45-51. *)
Definition user_page (username : text) : page :=
  {| pageImageUrl := Str (lit "https://og.codecrafters.io/api/user_profile/" ++ username);
     pageTitle := Str (username ++ lit "'s CodeCrafters Profile");
     pageDescription := Str (lit "View " ++ username ++ lit "'s profile on CodeCrafters") |}.

(** Line 60: one word of the slug. *)
Definition capitalize (word : text) : text :=
  toUpperCase (charAt0 word) ++ toLowerCase (slice1 word).

(** Lines 57-60. *)
Definition fallback_title (conceptSlug : text) : text :=
  join (lit " ") (map capitalize (split "-" conceptSlug)).

(** Line 63. *)
Definition fallback_description (conceptSlug : text) : text :=
  lit "View the " ++ fallback_title conceptSlug ++ lit " concept on CodeCrafters".

Definition concept_data_url (conceptSlug : text) : text :=
  lit "https://backend.codecrafters.io/services/dynamic_og_images/concept_data?id_or_slug="
  ++ conceptSlug.

(** Lines 53-84. *)
Definition concept_page (e : env) (conceptSlug : text) : M page :=
  set_conceptTitle (Str (fallback_title conceptSlug)) ;;
  set_conceptDescription (Str (fallback_description conceptSlug)) ;;
  try_catch
    (conceptData <- throw_or (fetch_json e (concept_data_url conceptSlug)) ;;
     t <- throw_or (get_property conceptData (lit "title")) ;;
     set_conceptTitle t ;;
     d <- throw_or (get_property conceptData (lit "description_markdown")) ;;
     set_conceptDescription d)
    (fun err =>
       log (console_error [AError err]) ;;
       log (console_log [AText (lit "ignoring error for now")])) ;;
  t <- get_conceptTitle ;;
  d <- get_conceptDescription ;;
  ret {| pageImageUrl := Str (lit "https://og.codecrafters.io/api/concept/" ++ conceptSlug);
         pageTitle := t;
         pageDescription := d |}.

Section Middleware.

(** [replaceMetaTag] of [app/utils/replace-meta-tag], which the middleware
    imports: text, attribute name, attribute value, new content. *)
Variable replaceMetaTag : text -> text -> text -> js_value -> text.

(** Lines 95-103: the list of substitutions. *)
Definition substitutions (p : page) : list (text * text * js_value) :=
  [ (lit "name", lit "description", pageDescription p);
    (lit "property", lit "og:title", pageTitle p);
    (lit "property", lit "og:description", pageDescription p);
    (lit "property", lit "og:image", pageImageUrl p);
    (lit "name", lit "twitter:title", pageTitle p);
    (lit "name", lit "twitter:description", pageDescription p);
    (lit "name", lit "twitter:image", pageImageUrl p) ].

(** Lines 95-103: the reduce over them. *)
Definition responseText (indexFileText : text) (p : page) : text :=
  fold_left (fun t args => let '(a, v, c) := args in replaceMetaTag t a v c)
            (substitutions p) indexFileText.

(** Lines 28-107. *)
Definition middleware (e : env) (req : request) : M outcome :=
  let usersPathMatchResult := match_path users_pattern (url req) in
  let conceptsPathMatchResult := match_path concepts_pattern (url req) in
  match usersPathMatchResult, conceptsPathMatchResult with
  | None, None =>
      log (console_error
             [AText (lit "Unable to parse username or concept slug from the URL:");
              AText (url req)]) ;;
      ret (Next req)
  | _, _ =>
      p <- match usersPathMatchResult with
           | Some m => ret (user_page (group1 m))
           | None =>
               match conceptsPathMatchResult with
               | Some m => concept_page e (group1 m)
               | None => ret {| pageImageUrl := Undefined;
                                pageTitle := Undefined;
                                pageDescription := Undefined |}
               end
           end ;;
      indexFileText <- throw_or (fetch_index e) ;;
      ret (Respond (new_Response (responseText indexFileText p)
                      [(lit "Content-Type", lit "text/html")]))
  end.

End Middleware.

(* ===================================================================== *)
(** ** String conversion of a value *)
(* ===================================================================== *)

(** [String(v)] of the language, as a template or a replacement applies
    it to a value that is not a string: an array joins its elements with
    commas, [null] elements rendering as nothing. *)
Fixpoint json_to_string (j : json) : text :=
  match j with
  | JNull => lit "null"
  | JBool true => lit "true"
  | JBool false => lit "false"
  | JNumber repr => repr
  | JString s => s
  | JArray items =>
      join (lit ",")
           (map (fun x => match x with
                          | JNull => []
                          | _ => json_to_string x
                          end) items)
  | JObject _ => lit "[object Object]"
  end.

Definition ToString (v : js_value) : text :=
  match v with
  | Undefined => lit "undefined"
  | Of j => json_to_string j
  end.

(* ===================================================================== *)
(** ** The substitution of one meta tag *)
(* ===================================================================== *)

(** Modelled from the spec: white space between the parts of a tag, which
    the missing [app/utils/replace-meta-tag] has to skip. *)
Definition is_space (c : ascii) : bool :=
  existsb (Nat.eqb (nat_of_ascii c)) [32; 9; 10; 12; 13].

(** Modelled from the spec: where a meta tag starts, for the missing
    [app/utils/replace-meta-tag]: the tag name followed by white space. *)
Definition opens_meta (l : text) : bool :=
  match strip_prefix (lit "<meta") l with
  | Some (c :: _) => is_space c
  | _ => false
  end.

(** Modelled from the spec: the pieces of an HTML text as the missing
    [app/utils/replace-meta-tag] sees it: a character outside any meta tag,
    a whole meta tag, or a meta tag that the text ends inside of. *)
Inductive token : Type :=
| Chr (c : ascii)
| Tag (raw : text)
| Unclosed (raw : text).

(** Modelled from the spec: the scan of the missing
    [app/utils/replace-meta-tag] for meta tags, honouring attribute-value
    quoting: a tag runs from its opening to the first [>] that is not
    inside a double-quoted value.  The state is [None] outside a tag, and
    inside one the characters read so far (last first) with whether a
    quoted value is open. *)
Fixpoint scan (st : option (text * bool)) (l : text) : list token :=
  match l with
  | [] =>
      match st with
      | None => []
      | Some (acc, _) => [Unclosed (rev acc)]
      end
  | c :: l' =>
      match st with
      | None =>
          if opens_meta l then scan (Some ([c], false)) l'
          else Chr c :: scan None l'
      | Some (acc, inq) =>
          if Ascii.eqb c dquote then scan (Some (c :: acc, negb inq)) l'
          else if Ascii.eqb c ">" && negb inq
               then Tag (rev (c :: acc)) :: scan None l'
               else scan (Some (c :: acc, inq)) l'
      end
  end.

(** Modelled from the spec: the pieces of a whole text, for the missing
    [app/utils/replace-meta-tag]. *)
Definition tokenize (t : text) : list token := scan None t.

(** Modelled from the spec: the text of a piece, for the missing
    [app/utils/replace-meta-tag]. *)
Definition render (k : token) : text :=
  match k with
  | Chr c => [c]
  | Tag raw => raw
  | Unclosed raw => raw
  end.

(** Modelled from the spec: the text of all pieces in a row, for the
    missing [app/utils/replace-meta-tag]. *)
Definition untokenize (ks : list token) : text := List.concat (map render ks).

(** Modelled from the spec: a tag of the missing
    [app/utils/replace-meta-tag] cut at its double quotes: the pieces
    alternate between the text before a value and the value,
    [u0; v1; u1; v2; ...; tail]. *)
Definition parts_of (raw : text) : list text := split dquote raw.

(** Modelled from the spec: the attribute name a piece ends with, when it
    ends with [name=]. *)
Definition attr_name (u : text) : option text :=
  match rev u with
  | c :: r =>
      if Ascii.eqb c "=" then Some (rev (take_while (fun x => negb (is_space x)) r))
      else None
  | [] => None
  end.

(** Modelled from the spec: whether a piece ends with the attribute name
    [a], for the missing [app/utils/replace-meta-tag]. *)
Definition names (a : text) (u : text) : bool :=
  match attr_name u with
  | Some n => text_eqb n a
  | None => false
  end.

(** Modelled from the spec: how the missing [app/utils/replace-meta-tag]
    writes one character of a content between the double quotes of an
    attribute value ("must handle attribute-value quoting"): a double
    quote and an ampersand go in as character references. *)
Definition escape_char (c : ascii) : text :=
  if Ascii.eqb c dquote then lit "&quot;"
  else if Ascii.eqb c "&" then lit "&amp;"
  else [c].

(** Modelled from the spec: a content as the missing
    [app/utils/replace-meta-tag] writes it between the quotes. *)
Definition escape (s : text) : text := flat_map escape_char s.

(** Modelled from the spec: the value that a double-quoted piece of a tag
    stands for, for the missing [app/utils/replace-meta-tag]: the two
    character references read back. *)
Fixpoint unescape (s : text) : text :=
  match s with
  | [] => []
  | c :: s' =>
      let r := unescape s' in
      if Ascii.eqb c "&" then
        match strip_prefix (lit "amp;") r with
        | Some r' => "&"%char :: r'
        | None =>
            match strip_prefix (lit "quot;") r with
            | Some r' => dquote :: r'
            | None => c :: r
            end
        end
      else c :: r
  end.

(** Modelled from the spec: "a meta tag matching the given attribute/value
    pair", wherever in the tag the attribute stands. *)
Fixpoint has_attr (a v : text) (parts : list text) : bool :=
  match parts with
  | u :: w :: rest => (names a u && text_eqb (unescape w) v) || has_attr a v rest
  | _ => false
  end.

(** Modelled from the spec: "replacing its [content] attribute value with
    the supplied string", for the missing [app/utils/replace-meta-tag];
    [c] is the string as it is written between the quotes. *)
Fixpoint set_content (c : text) (parts : list text) : list text :=
  match parts with
  | u :: w :: rest =>
      u :: (if names (lit "content") u then c else w) :: set_content c rest
  | _ => parts
  end.

(** Modelled from the spec: the substitution on the pieces of one tag,
    for the missing [app/utils/replace-meta-tag]: a tag that does not
    carry the pair, or has no [content] attribute, stays as it is. *)
Definition rewrite_parts (a v c : text) (parts : list text) : list text :=
  if has_attr a v parts then set_content c parts else parts.

(** Modelled from the spec: the substitution on the text of one tag, for
    the missing [app/utils/replace-meta-tag]. *)
Definition rewrite_tag (a v c : text) (raw : text) : text :=
  join [dquote] (rewrite_parts a v c (parts_of raw)).

(** Modelled from the spec: the substitution on a piece of the text:
    only whole meta tags change, for the missing
    [app/utils/replace-meta-tag]. *)
Definition rewrite_token (a v c : text) (k : token) : token :=
  match k with
  | Tag raw => Tag (rewrite_tag a v c raw)
  | _ => k
  end.

(** Modelled from the spec: the substitution of the missing
    [app/utils/replace-meta-tag] once the content is written as it stands
    between the quotes: every meta tag that carries the attribute [a] with
    value [v] gets it as the value of its [content] attributes; all other
    document content is copied. *)
Definition put_content (t a v c : text) : text :=
  untokenize (map (rewrite_token a v c) (tokenize t)).

(** Modelled from the spec: [replaceMetaTag] of the missing
    [app/utils/replace-meta-tag] on a string content ("locating a meta tag
    matching the given attribute/value pair and replacing its [content]
    attribute value with the supplied string"): after the call the value
    of the [content] attribute of every such tag is the supplied string,
    whatever characters it holds. *)
Definition replace_meta_tag (t a v c : text) : text :=
  put_content t a v (escape c).

(** Modelled from the spec: [replaceMetaTag] of the missing
    [app/utils/replace-meta-tag] as the middleware calls it, with a value
    for the content, which goes in as the string it converts to. *)
Definition replaceMetaTag (t a v : text) (c : js_value) : text :=
  replace_meta_tag t a v (ToString c).

(** The values of the attribute [a] in a tag. *)
Fixpoint attr_values (a : text) (parts : list text) : list text :=
  match parts with
  | u :: w :: rest =>
      if names a u then unescape w :: attr_values a rest else attr_values a rest
  | _ => []
  end.

(** The content of a meta tag as a reader of the HTML takes it: the value
    of its first [content] attribute. *)
Definition content_of (parts : list text) : option text :=
  hd_error (attr_values (lit "content") parts).

(** The meta tags of a text, each cut into its pieces. *)
Definition meta_tags (t : text) : list (list text) :=
  flat_map (fun k => match k with
                     | Tag raw => [parts_of raw]
                     | _ => []
                     end) (tokenize t).

(** The end of the tag that [l] continues: the characters up to the first
    [>] outside a quoted value, and what follows. *)
Fixpoint tag_end (inq : bool) (l : text) : option (text * text) :=
  match l with
  | [] => None
  | c :: l' =>
      if Ascii.eqb c dquote
      then option_map (fun r => (c :: fst r, snd r)) (tag_end (negb inq) l')
      else if Ascii.eqb c ">" && negb inq then Some ([c], l')
           else option_map (fun r => (c :: fst r, snd r)) (tag_end inq l')
  end.


Definition no_dquote (c : text) : Prop := ~ In dquote c.

(** The path of a request URL: what stands between the authority and the
    first [?] or [#]. *)
Fixpoint after_scheme (u : text) : option text :=
  match u with
  | [] => None
  | _ :: u' =>
      match strip_prefix (lit "://") u with
      | Some rest => Some rest
      | None => after_scheme u'
      end
  end.

Definition url_path (u : text) : text :=
  let from_authority := match after_scheme u with
                        | Some rest => drop_while segment_char rest
                        | None => u
                        end in
  take_while (fun c => negb (Ascii.eqb c "?") && negb (Ascii.eqb c "#")) from_authority.

(** The title read off the slug one character at a time: a hyphen gives
    a space; the first character of the slug and the one after each
    hyphen is upper-cased, every other one lower-cased. *)
Fixpoint title_case (at_start : bool) (slug : text) : text :=
  match slug with
  | [] => []
  | c :: s =>
      if Ascii.eqb c "-" then " "%char :: title_case true s
      else (if at_start then upper_char c else lower_char c) :: title_case false s
  end.

(** The URL has [p] followed by a segment character somewhere in it. *)
Definition contains_route (p u : text) : Prop :=
  exists pre c rest, u = pre ++ p ++ c :: rest /\ segment_char c = true.

Definition passes_through (r : state * (js_error + outcome)) : bool :=
  match snd r with
  | inr (Next _) => true
  | _ => false
  end.

Definition html_headers : list (text * text) :=
  [(lit "Content-Type", lit "text/html")].

(** [l] is exactly one tag body: its first [>] outside a quoted value is
    its last character. *)
Definition closed (inq : bool) (l : text) : Prop := tag_end inq l = Some (l, []).

(** The token lists that the scan produces. *)
Inductive canon : list token -> Prop :=
| canon_nil : canon []
| canon_chr c ks :
    opens_meta (c :: untokenize ks) = false -> canon ks -> canon (Chr c :: ks)
| canon_tag raw ks :
    opens_meta raw = true -> closed false raw -> canon ks -> canon (Tag raw :: ks)
| canon_unclosed raw :
    opens_meta raw = true -> tag_end false raw = None -> canon [Unclosed raw].











(** The seven calls of lines 95-103 written out, one inside the other. *)
Definition substituted (replace : text -> text -> text -> js_value -> text)
           (tpl : text) (image title description : js_value) : text :=
  replace
    (replace
       (replace
          (replace
             (replace
                (replace
                   (replace tpl (lit "name") (lit "description") description)
                   (lit "property") (lit "og:title") title)
                (lit "property") (lit "og:description") description)
             (lit "property") (lit "og:image") image)
          (lit "name") (lit "twitter:title") title)
       (lit "name") (lit "twitter:description") description)
    (lit "name") (lit "twitter:image") image.

Definition response_body (r : state * (js_error + outcome)) : text :=
  match snd r with
  | inr (Respond resp) => body resp
  | _ => []
  end.

(* ===================================================================== *)
(** ** Sample requests and environments *)
(* ===================================================================== *)

Definition sample_template : text :=
  html "<!DOCTYPE html><html><head><meta charset='utf-8'><title>CodeCrafters</title><meta name='description' content='d0'><meta property='og:title' content='t0'><meta content='d1' property='og:description'><meta property='og:image' content='i0'><meta name='twitter:title' content='t1'><meta name='twitter:description' content='d2' /><meta name='twitter:image' content='i1'></head><body></body></html>".

Definition env_down : env :=
  {| fetch_json := fun _ => inl NetworkError; fetch_index := inr sample_template |}.

Definition custom_fields : list (text * json) :=
  [(lit "title", JString (lit "Custom Title"));
   (lit "description_markdown", JString (lit "Custom desc"))].

Definition env_custom : env :=
  {| fetch_json := fun _ => inr (JObject custom_fields);
     fetch_index := inr sample_template |}.



Definition quoted_fields : list (text * json) :=
  [(lit "title", JString (html "What is 'DNS'?"));
   (lit "description_markdown", JString (lit "How names are resolved"))].

Definition env_quoted : env :=
  {| fetch_json := fun _ => inr (JObject quoted_fields);
     fetch_index := inr sample_template |}.

Definition req_alice : request := {| url := lit "https://codecrafters.io/users/alice" |}.
Definition req_concept : request :=
  {| url := lit "https://codecrafters.io/concepts/network-protocols" |}.
Definition req_about : request := {| url := lit "https://codecrafters.io/about" |}.




Definition env_no_template : env :=
  {| fetch_json := fun _ => inl SyntaxError; fetch_index := inl NetworkError |}.

(* ===================================================================== *)
(** ** Facts on strings and on the route patterns *)
(* ===================================================================== *)

Lemma text_eqb_eq (a b : text) : text_eqb a b = true <-> a = b.
Proof.
  revert b; induction a as [|x a IH]; intros [|y b]; simpl; split;
    try congruence; try discriminate.
  - intros H. apply andb_true_iff in H as [Hx Hab].
    apply Ascii.eqb_eq in Hx. apply IH in Hab. congruence.
  - intros H. injection H as -> ->.
    rewrite Ascii.eqb_refl. simpl. now apply IH.
Qed.

Lemma text_eqb_refl (a : text) : text_eqb a a = true.
Proof. now apply text_eqb_eq. Qed.

Lemma strip_prefix_app (p rest : text) : strip_prefix p (p ++ rest) = Some rest.
Proof.
  induction p as [|x p IH]; simpl; [reflexivity|].
  now rewrite Ascii.eqb_refl.
Qed.

Lemma strip_prefix_some (p s rest : text) :
  strip_prefix p s = Some rest -> s = p ++ rest.
Proof.
  revert s; induction p as [|x p IH]; intros s; simpl.
  - now intros [= ->].
  - destruct s as [|y s]; [discriminate|].
    destruct (Ascii.eqb x y) eqn:E; [|discriminate].
    apply Ascii.eqb_eq in E. subst y. intros H. now rewrite (IH _ H).
Qed.

Lemma take_while_all (f : ascii -> bool) (s : text) :
  forallb f (take_while f s) = true.
Proof.
  induction s as [|c s IH]; simpl; [reflexivity|].
  destruct (f c) eqn:E; simpl; [now rewrite E|reflexivity].
Qed.

Lemma take_while_split (f : ascii -> bool) (s : text) :
  exists rest, s = take_while f s ++ rest /\
               (rest = [] \/ exists c r, rest = c :: r /\ f c = false).
Proof.
  induction s as [|c s (rest & Hs & Hr)]; simpl.
  - exists []. auto.
  - destruct (f c) eqn:E.
    + exists rest. split; [simpl; congruence|exact Hr].
    + exists (c :: s). split; [reflexivity|]. right. now exists c, s.
Qed.

(** A successful match cuts the string around a non-empty segment that
    ends at the end of the string or at a [/] or [?]. *)
Lemma match_path_some (p s full seg : text) :
  match_path p s = Some (full, seg) ->
  full = p ++ seg /\ seg <> [] /\ forallb segment_char seg = true /\
  exists pre rest, s = pre ++ p ++ seg ++ rest /\
    (rest = [] \/ exists c r, rest = c :: r /\ segment_char c = false).
Proof.
  induction s as [|x s IH]; [discriminate|].
  intros H. cbn [match_path] in H.
  assert (Hrec : match_path p s = Some (full, seg) ->
          full = p ++ seg /\ seg <> [] /\ forallb segment_char seg = true /\
          exists pre rest, (x :: s) = pre ++ p ++ seg ++ rest /\
            (rest = [] \/ exists c r, rest = c :: r /\ segment_char c = false)).
  { intros H'. destruct (IH H') as (Hf & Hne & Hall & pre & rest & Hs & Hr).
    repeat split; trivial. exists (x :: pre), rest. split; [|exact Hr].
    simpl. now rewrite Hs. }
  destruct (strip_prefix p (x :: s)) as [rest0|] eqn:Hp; [|auto].
  destruct (take_while segment_char rest0) as [|c seg0] eqn:Ht; [auto|].
  injection H as <- <-.
  apply strip_prefix_some in Hp.
  destruct (take_while_split segment_char rest0) as (rest & Hr0 & Hr).
  repeat split.
  - discriminate.
  - rewrite <- Ht. apply take_while_all.
  - exists [], rest. split; [|exact Hr].
    rewrite Ht in Hr0. simpl. now rewrite Hp, Hr0.
Qed.

(** The match fails only when the pattern is nowhere followed by a
    segment character. *)
Lemma match_path_contains (p u : text) :
  contains_route p u <-> match_path p u <> None.
Proof.
  split.
  - intros (pre & c & rest & -> & Hc).
    induction pre as [|x pre IH].
    + simpl. destruct (p ++ c :: rest) as [|y t] eqn:E.
      { destruct p; discriminate. }
      cbn [match_path]. rewrite <- E, strip_prefix_app.
      simpl. rewrite Hc. discriminate.
    + cbn [app match_path].
      destruct (strip_prefix p (x :: pre ++ p ++ c :: rest)) as [r|]; [|exact IH].
      destruct (take_while segment_char r); [exact IH|discriminate].
  - induction u as [|x u IH]; [now intros []|].
    cbn [match_path]. intros H.
    assert (Hrec : match_path p u <> None -> contains_route p (x :: u)).
    { intros H'. destruct (IH H') as (pre & c & rest & -> & Hc).
      now exists (x :: pre), c, rest. }
    destruct (strip_prefix p (x :: u)) as [r|] eqn:Hp; [|auto].
    destruct (take_while segment_char r) as [|c seg] eqn:Ht; [auto|].
    apply strip_prefix_some in Hp.
    destruct r as [|c' r']; [discriminate|].
    simpl in Ht. destruct (segment_char c') eqn:Hc; [|discriminate].
    exists [], c', r'. now split.
Qed.

Lemma split_nonempty (sep : ascii) (s : text) : split sep s <> [].
Proof.
  destruct s as [|c s]; simpl; [discriminate|].
  destruct (Ascii.eqb c sep); [discriminate|].
  destruct (split sep s); discriminate.
Qed.

Lemma join_cons_char (sep : text) (x : ascii) (w : text) (ws : list text) :
  join sep ((x :: w) :: ws) = x :: join sep (w :: ws).
Proof. destruct ws; reflexivity. Qed.

Lemma join_cons2 (sep w w' : text) (ws : list text) :
  join sep (w :: w' :: ws) = w ++ sep ++ join sep (w' :: ws).
Proof. reflexivity. Qed.

(** The word-by-word title and the character-by-character one agree, also
    in the middle of a word. *)
Lemma title_case_words (b : bool) (s : text) :
  match split "-" s with
  | w :: ws =>
      join (lit " ") ((if b then capitalize w else toLowerCase w) :: map capitalize ws)
  | [] => []
  end = title_case b s.
Proof.
  revert b; induction s as [|c s IH]; intros b.
  - now destruct b.
  - cbn [split title_case]. destruct (Ascii.eqb c "-") eqn:E.
    + specialize (IH true). destruct (split "-" s) as [|w ws] eqn:Hs.
      { now apply split_nonempty in Hs. }
      cbn [map]. rewrite join_cons2, IH. now destruct b.
    + specialize (IH false). destruct (split "-" s) as [|w ws] eqn:Hs.
      { now apply split_nonempty in Hs. }
      rewrite <- IH.
      destruct b; unfold capitalize; cbn [charAt0 slice1 tl toUpperCase toLowerCase map app];
        now rewrite join_cons_char.
Qed.

(* ===================================================================== *)
(** ** The middleware, whatever [replaceMetaTag] does *)
(* ===================================================================== *)

Section MiddlewareFacts.

Variable replace : text -> text -> text -> js_value -> text.

Lemma middleware_user (e : env) (req : request) (s : state) (m : text * text) :
  match_path users_pattern (url req) = Some m ->
  middleware replace e req s =
  match fetch_index e with
  | inr indexFileText =>
      (s, inr (Respond (new_Response
                          (responseText replace indexFileText (user_page (group1 m)))
                          html_headers)))
  | inl err => (s, inl err)
  end.
Proof.
  intros Hu. unfold middleware. rewrite Hu.
  unfold bind, ret, throw_or. now destruct (fetch_index e).
Qed.

Lemma middleware_concept (e : env) (req : request) (s : state) (m : text * text) :
  match_path users_pattern (url req) = None ->
  match_path concepts_pattern (url req) = Some m ->
  middleware replace e req s =
  match concept_page e (group1 m) s with
  | (s', inr p) =>
      match fetch_index e with
      | inr indexFileText =>
          (s', inr (Respond (new_Response (responseText replace indexFileText p)
                               html_headers)))
      | inl err => (s', inl err)
      end
  | (s', inl err) => (s', inl err)
  end.
Proof.
  intros Hu Hc. unfold middleware. rewrite Hu, Hc.
  unfold bind at 1. destruct (concept_page e (group1 m) s) as [s' [err|p]];
    [reflexivity|].
  unfold bind, ret, throw_or. now destruct (fetch_index e).
Qed.

Lemma middleware_unmatched (e : env) (req : request) (s : state) :
  match_path users_pattern (url req) = None ->
  match_path concepts_pattern (url req) = None ->
  middleware replace e req s =
  ({| console := console s ++
                 [console_error
                    [AText (lit "Unable to parse username or concept slug from the URL:");
                     AText (url req)]];
      conceptTitle := conceptTitle s;
      conceptDescription := conceptDescription s |},
   inr (Next req)).
Proof. intros Hu Hc. unfold middleware. now rewrite Hu, Hc. Qed.

(** The concept branch never throws: it ends in a page. *)
Lemma concept_page_returns (e : env) (slug : text) (s : state) :
  exists s' p, concept_page e slug s = (s', inr p) /\
    pageImageUrl p = Str (lit "https://og.codecrafters.io/api/concept/" ++ slug).
Proof.
  unfold concept_page, bind, try_catch, throw_or, set_conceptTitle,
    set_conceptDescription, get_conceptTitle, get_conceptDescription, log, ret.
  cbn [console conceptTitle conceptDescription].
  destruct (fetch_json e (concept_data_url slug)) as [err|data];
    [eexists _, _; split; reflexivity|].
  destruct (get_property data (lit "title")) as [err|t];
    [eexists _, _; split; reflexivity|].
  cbn [console conceptTitle conceptDescription].
  destruct (get_property data (lit "description_markdown")) as [err|d];
    eexists _, _; split; reflexivity.
Qed.

(** When the fetch chain throws, both fallbacks stay and the error is
    logged. *)
Lemma concept_page_fallback (e : env) (slug : text) (s : state) (err : js_error) :
  fetch_json e (concept_data_url slug) = inl err \/
  (fetch_json e (concept_data_url slug) = inr JNull /\ err = TypeError) ->
  concept_page e slug s =
  ({| console := console s ++
                 [console_error [AError err];
                  console_log [AText (lit "ignoring error for now")]];
      conceptTitle := Str (fallback_title slug);
      conceptDescription := Str (fallback_description slug) |},
   inr {| pageImageUrl := Str (lit "https://og.codecrafters.io/api/concept/" ++ slug);
          pageTitle := Str (fallback_title slug);
          pageDescription := Str (fallback_description slug) |}).
Proof.
  unfold concept_page, bind, try_catch, throw_or, set_conceptTitle,
    set_conceptDescription, get_conceptTitle, get_conceptDescription, log, ret.
  cbn [console conceptTitle conceptDescription].
  intros [-> | [-> ->]]; cbn [get_property console conceptTitle conceptDescription];
    now rewrite <- app_assoc.
Qed.

(** When the service answers with an object, both variables are
    overwritten with what the object holds under the two keys. *)
Lemma concept_page_object (e : env) (slug : text) (s : state)
      (fields : list (text * json)) :
  fetch_json e (concept_data_url slug) = inr (JObject fields) ->
  concept_page e slug s =
  ({| console := console s;
      conceptTitle := own_property fields (lit "title");
      conceptDescription := own_property fields (lit "description_markdown") |},
   inr {| pageImageUrl := Str (lit "https://og.codecrafters.io/api/concept/" ++ slug);
          pageTitle := own_property fields (lit "title");
          pageDescription := own_property fields (lit "description_markdown") |}).
Proof.
  unfold concept_page, bind, try_catch, throw_or, set_conceptTitle,
    set_conceptDescription, get_conceptTitle, get_conceptDescription, log, ret.
  cbn [console conceptTitle conceptDescription].
  now intros ->.
Qed.

(** Given the template, the middleware answers with the rewritten text
    exactly when one of the patterns is found in the URL. *)
Lemma middleware_rewrites_iff (e : env) (req : request) (s : state) (tpl : text) :
  fetch_index e = inr tpl ->
  (exists s' p, middleware replace e req s =
     (s', inr (Respond (new_Response (responseText replace tpl p) html_headers))))
  <->
  (match_path users_pattern (url req) <> None \/
   match_path concepts_pattern (url req) <> None).
Proof.
  intros Ht. split.
  - intros (s' & p & H).
    destruct (match_path users_pattern (url req)) eqn:Hu; [left; discriminate|].
    destruct (match_path concepts_pattern (url req)) eqn:Hc; [right; discriminate|].
    rewrite (middleware_unmatched e req s Hu Hc) in H. discriminate.
  - intros H.
    destruct (match_path users_pattern (url req)) as [m|] eqn:Hu.
    + exists s, (user_page (group1 m)).
      now rewrite (middleware_user e req s _ Hu), Ht.
    + destruct (match_path concepts_pattern (url req)) as [m|] eqn:Hc.
      * destruct (concept_page_returns e (group1 m) s) as (s' & p & Hp & _).
        exists s', p.
        now rewrite (middleware_concept e req s _ Hu Hc), Hp, Ht.
      * now destruct H as [H | H]; destruct H.
Qed.

End MiddlewareFacts.



Lemma responseText_substituted
    (replace : text -> text -> text -> js_value -> text) (tpl : text) (p : page) :
  responseText replace tpl p =
  substituted replace tpl (pageImageUrl p) (pageTitle p) (pageDescription p).
Proof. reflexivity. Qed.

(** When both fields can be read off the answer, they are what the page
    is made of, and nothing is logged. *)
Lemma concept_page_data (e : env) (slug : text) (s : state) (data : json)
      (t d : js_value) :
  fetch_json e (concept_data_url slug) = inr data ->
  get_property data (lit "title") = inr t ->
  get_property data (lit "description_markdown") = inr d ->
  concept_page e slug s =
  ({| console := console s; conceptTitle := t; conceptDescription := d |},
   inr {| pageImageUrl := Str (lit "https://og.codecrafters.io/api/concept/" ++ slug);
          pageTitle := t;
          pageDescription := d |}).
Proof.
  intros Hf Ht Hd.
  unfold concept_page, bind, try_catch, throw_or, set_conceptTitle,
    set_conceptDescription, get_conceptTitle, get_conceptDescription, log, ret.
  cbn [console conceptTitle conceptDescription]. now rewrite Hf, Ht, Hd.
Qed.

Lemma json_eq_null (data : json) : data = JNull \/ data <> JNull.
Proof. destruct data; [now left|right; discriminate ..]. Qed.

(** Any answer but [null] lets both fields be read. *)
Lemma get_property_defined (data : json) (key : text) :
  data <> JNull -> exists v, get_property data key = inr v.
Proof. destruct data; intros H; try (eexists; reflexivity). now destruct H. Qed.

(* ===================================================================== *)
(** ** The claims settled on the middleware *)
(* ===================================================================== *)

(** C1, as amended.  For a request URL in which the users pattern
    matches with segment [username], the middleware answers with the
    template substituted with: title [username ++ "'s CodeCrafters Profile"],
    description ["View " ++ username ++ "'s profile on CodeCrafters"], and
    the image URL made of a fixed prefix followed by the username; the
    username is a non-empty run of segment characters standing right after
    [/users/] in the URL. *)
Theorem user_route_metadata
    (replace : text -> text -> text -> js_value -> text)
    (e : env) (req : request) (s : state) (full username tpl : text) :
  match_path users_pattern (url req) = Some (full, username) ->
  fetch_index e = inr tpl ->
  middleware replace e req s =
    (s, inr (Respond (new_Response (responseText replace tpl (user_page username))
                        html_headers))) /\
  pageTitle (user_page username) = Str (username ++ lit "'s CodeCrafters Profile") /\
  pageDescription (user_page username) =
    Str (lit "View " ++ username ++ lit "'s profile on CodeCrafters") /\
  pageImageUrl (user_page username) =
    Str (lit "https://og.codecrafters.io/api/user_profile/" ++ username) /\
  username <> [] /\ forallb segment_char username = true /\
  exists pre rest, url req = pre ++ lit "/users/" ++ username ++ rest.
Proof.
  intros Hu Ht. split.
  - rewrite (middleware_user replace e req s _ Hu), Ht. reflexivity.
  - repeat split; try reflexivity;
      destruct (match_path_some _ _ _ _ Hu) as (_ & Hne & Hall & pre & rest & Hs & _);
      trivial.
    now exists pre, rest.
Qed.

Lemma user_route_metadata_witness :
  match_path users_pattern (url req_alice) = Some (lit "/users/alice", lit "alice") /\
  fetch_index env_down = inr sample_template /\
  pageTitle (user_page (lit "alice")) = Str (lit "alice" ++ lit "'s CodeCrafters Profile").
Proof.
  split; [reflexivity|]. split; [reflexivity|].
  exact (proj1 (proj2 (@user_route_metadata replaceMetaTag env_down req_alice initial
                         (lit "/users/alice") (lit "alice") sample_template
                         eq_refl eq_refl))).
Defined.

(** C1 as stated fails: for [/users/alice] the title is not
    "alice's Profile" and the description is not "View alice's profile". *)
Lemma user_route_title_differs :
  match_path users_pattern (url req_alice) = Some (lit "/users/alice", lit "alice") /\
  pageTitle (user_page (lit "alice")) = Str (lit "alice's CodeCrafters Profile") /\
  pageTitle (user_page (lit "alice")) <> Str (lit "alice's Profile") /\
  pageDescription (user_page (lit "alice")) <> Str (lit "View alice's profile").
Proof. repeat split; try reflexivity; discriminate. Qed.

(** C3.  The fallback title, computed by splitting the slug on hyphens,
    capitalising each word (first letter upper-cased, the rest
    lower-cased) and joining with one space, is the slug with every hyphen
    turned into a space, every word-initial letter upper-cased and every
    other letter lower-cased; [network-protocols] gives
    [Network Protocols]; and the fallback description is
    "View the <fallback title> concept on CodeCrafters". *)
Theorem fallback_title_is_title_case (slug : text) :
  fallback_title slug = title_case true slug /\
  fallback_title (lit "network-protocols") = lit "Network Protocols" /\
  fallback_description slug =
    (lit "View the " ++ fallback_title slug ++ lit " concept") ++ lit " on CodeCrafters".
Proof.
  split; [|split].
  - unfold fallback_title. rewrite <- title_case_words.
    destruct (split "-" slug) as [|w ws] eqn:Hs; [|reflexivity].
    now apply split_nonempty in Hs.
  - reflexivity.
  - unfold fallback_description. now rewrite <- !app_assoc.
Qed.

(** C4.  When neither pattern matches the request URL, the middleware logs
    one error naming the URL, changes nothing else, and returns
    [next(request)] with the request it was given: no response of its own,
    no exception. *)
Theorem unmatched_passes_through
    (replace : text -> text -> text -> js_value -> text)
    (e : env) (req : request) (s : state) :
  match_path users_pattern (url req) = None ->
  match_path concepts_pattern (url req) = None ->
  middleware replace e req s =
  ({| console := console s ++
                 [console_error
                    [AText (lit "Unable to parse username or concept slug from the URL:");
                     AText (url req)]];
      conceptTitle := conceptTitle s;
      conceptDescription := conceptDescription s |},
   inr (Next req)).
Proof. apply middleware_unmatched. Qed.

Lemma unmatched_passes_through_witness :
  snd (middleware replaceMetaTag env_down req_about initial) = inr (Next req_about).
Proof.
  rewrite (@unmatched_passes_through replaceMetaTag env_down req_about initial
             eq_refl eq_refl).
  reflexivity.
Defined.

(** C5, as amended.  On a concept route, when the fetch or the JSON parse
    throws (or the parsed value is [null], so that reading its title
    throws), the error is logged together with the notice that it is
    ignored, both slug-derived fallbacks are kept, and the error goes no
    further.  If the template is then read, the middleware returns the
    response of status 200 and content type [text/html] whose body is the
    template after the seven substitutions, made with the fallback title
    and description and the image URL of the slug; if the read of the
    template throws, that error is thrown and there is no response. *)
Theorem fetch_failure_keeps_fallback
    (replace : text -> text -> text -> js_value -> text)
    (e : env) (req : request) (s : state) (full slug : text) (err : js_error) :
  match_path users_pattern (url req) = None ->
  match_path concepts_pattern (url req) = Some (full, slug) ->
  fetch_json e (concept_data_url slug) = inl err \/
  (fetch_json e (concept_data_url slug) = inr JNull /\ err = TypeError) ->
  middleware replace e req s =
  ({| console := console s ++
                 [console_error [AError err];
                  console_log [AText (lit "ignoring error for now")]];
      conceptTitle := Str (fallback_title slug);
      conceptDescription := Str (fallback_description slug) |},
   match fetch_index e with
   | inr tpl =>
       inr (Respond
              {| status := 200;
                 headers := [(lit "Content-Type", lit "text/html")];
                 body := substituted replace tpl
                           (Str (lit "https://og.codecrafters.io/api/concept/" ++ slug))
                           (Str (fallback_title slug))
                           (Str (fallback_description slug)) |})
   | inl err' => inl err'
   end).
Proof.
  intros Hu Hc Hf.
  rewrite (middleware_concept replace e req s _ Hu Hc). cbn [group1 snd].
  rewrite (concept_page_fallback e slug s _ Hf).
  now destruct (fetch_index e).
Qed.

Lemma fetch_failure_keeps_fallback_witness :
  response_body (middleware replaceMetaTag env_down req_concept initial) =
  substituted replaceMetaTag sample_template
    (Str (lit "https://og.codecrafters.io/api/concept/" ++ lit "network-protocols"))
    (Str (fallback_title (lit "network-protocols")))
    (Str (fallback_description (lit "network-protocols"))).
Proof.
  rewrite (fetch_failure_keeps_fallback replaceMetaTag env_down req_concept initial
             (lit "/concepts/network-protocols") (lit "network-protocols")
             NetworkError eq_refl eq_refl (or_introl eq_refl)).
  reflexivity.
Defined.

(** C5 as stated fails: on a concept route whose JSON parse throws, the
    read of the template throws as well, and the middleware throws that
    error instead of returning a response. *)
Lemma fetch_failure_then_template_failure :
  match_path users_pattern (url req_concept) = None /\
  match_path concepts_pattern (url req_concept) =
    Some (lit "/concepts/network-protocols", lit "network-protocols") /\
  fetch_json env_no_template (concept_data_url (lit "network-protocols")) = inl SyntaxError /\
  fetch_index env_no_template = inl NetworkError /\
  snd (middleware replaceMetaTag env_no_template req_concept initial) = inl NetworkError.
Proof. repeat split. Qed.

(** C6, as amended.  Given that the template can be read, the middleware
    answers with the rewritten template exactly when the request URL, taken
    as one string (scheme, host, path and query alike), has [/users/] or
    [/concepts/] somewhere in it followed by a character other than [/]
    and [?]. *)
Theorem rewrite_iff_url_contains_route
    (replace : text -> text -> text -> js_value -> text)
    (e : env) (req : request) (s : state) (tpl : text) :
  fetch_index e = inr tpl ->
  (exists s' p, middleware replace e req s =
     (s', inr (Respond (new_Response (responseText replace tpl p) html_headers))))
  <->
  (contains_route users_pattern (url req) \/ contains_route concepts_pattern (url req)).
Proof.
  intros Ht. rewrite !match_path_contains.
  now apply middleware_rewrites_iff.
Qed.

Lemma rewrite_iff_url_contains_route_witness :
  fetch_index env_down = inr sample_template /\
  ((exists s' p, middleware replaceMetaTag env_down req_alice initial =
      (s', inr (Respond (new_Response (responseText replaceMetaTag sample_template p)
                           html_headers))))
   <-> (contains_route users_pattern (url req_alice) \/
        contains_route concepts_pattern (url req_alice))).
Proof.
  split; [reflexivity|].
  exact (@rewrite_iff_url_contains_route replaceMetaTag env_down req_alice initial
           sample_template eq_refl).
Defined.

(** C6 as stated fails: two request URLs with the same path [/users], which
    matches neither [/users/<segment>] nor [/concepts/<segment>]; the one
    with [/concepts/dns] in its query string is rewritten, the other is
    passed through. *)
Lemma trigger_reads_query_string :
  url_path (lit "https://codecrafters.io/users?tab=/concepts/dns") = lit "/users" /\
  url_path (lit "https://codecrafters.io/users") = lit "/users" /\
  match_path users_pattern (lit "/users") = None /\
  match_path concepts_pattern (lit "/users") = None /\
  passes_through
    (middleware replaceMetaTag env_down
       {| url := lit "https://codecrafters.io/users?tab=/concepts/dns" |} initial) = false /\
  passes_through
    (middleware replaceMetaTag env_down
       {| url := lit "https://codecrafters.io/users" |} initial) = true.
Proof. repeat split; vm_compute; reflexivity. Qed.

(** C8, as amended.  For every matched request the middleware reads the
    template after the metadata.  If that read succeeds it returns a
    response of status 200 with the one header [Content-Type: text/html]
    and with the template after the seven substitutions as body, made
    with the values of the path taken: those of the user, the fallbacks of
    the slug, or what the answer of the concept service holds.  If the
    read throws, the middleware throws that error and returns no response.
    No response of the middleware has another status. *)
Theorem response_contract
    (replace : text -> text -> text -> js_value -> text)
    (e : env) (req : request) (s : state) :
  (forall full username,
      match_path users_pattern (url req) = Some (full, username) ->
      middleware replace e req s =
      (s, match fetch_index e with
          | inr tpl =>
              inr (Respond
                     {| status := 200;
                        headers := [(lit "Content-Type", lit "text/html")];
                        body := substituted replace tpl
                                  (Str (lit "https://og.codecrafters.io/api/user_profile/"
                                        ++ username))
                                  (Str (username ++ lit "'s CodeCrafters Profile"))
                                  (Str (lit "View " ++ username
                                        ++ lit "'s profile on CodeCrafters")) |})
          | inl err => inl err
          end)) /\
  (forall full slug,
      match_path users_pattern (url req) = None ->
      match_path concepts_pattern (url req) = Some (full, slug) ->
      exists s' title description,
        (((exists err, fetch_json e (concept_data_url slug) = inl err) \/
          fetch_json e (concept_data_url slug) = inr JNull) /\
         title = Str (fallback_title slug) /\
         description = Str (fallback_description slug)
         \/
         exists data,
           fetch_json e (concept_data_url slug) = inr data /\
           get_property data (lit "title") = inr title /\
           get_property data (lit "description_markdown") = inr description) /\
        middleware replace e req s =
        (s', match fetch_index e with
             | inr tpl =>
                 inr (Respond
                        {| status := 200;
                           headers := [(lit "Content-Type", lit "text/html")];
                           body := substituted replace tpl
                                     (Str (lit "https://og.codecrafters.io/api/concept/"
                                           ++ slug))
                                     title description |})
             | inl err => inl err
             end)) /\
  (forall s' r,
      middleware replace e req s = (s', inr (Respond r)) ->
      status r = 200 /\ headers r = [(lit "Content-Type", lit "text/html")]).
Proof.
  split; [|split].
  - intros full username Hu.
    rewrite (middleware_user replace e req s _ Hu). now destruct (fetch_index e).
  - intros full slug Hu Hc.
    rewrite (middleware_concept replace e req s _ Hu Hc). cbn [group1 snd].
    destruct (fetch_json e (concept_data_url slug)) as [err|data] eqn:Hf.
    + rewrite (concept_page_fallback e slug s err (or_introl Hf)).
      eexists _, _, _. split; [left; split; [left; now exists err|split; reflexivity]|].
      now destruct (fetch_index e).
    + destruct (json_eq_null data) as [->|Hn].
      * rewrite (concept_page_fallback e slug s TypeError (or_intror (conj Hf eq_refl))).
        eexists _, _, _. split; [left; split; [now right|split; reflexivity]|].
        now destruct (fetch_index e).
      * destruct (get_property_defined data (lit "title") Hn) as [t Ht].
        destruct (get_property_defined data (lit "description_markdown") Hn) as [d Hd].
        rewrite (concept_page_data e slug s data t d Hf Ht Hd).
        exists {| console := console s; conceptTitle := t; conceptDescription := d |}, t, d.
        split; [right; now exists data|]. now destruct (fetch_index e).
  - intros s' r H.
    destruct (match_path users_pattern (url req)) as [m|] eqn:Hu.
    + rewrite (middleware_user replace e req s _ Hu) in H.
      destruct (fetch_index e) as [err|t]; [discriminate|].
      injection H as _ <-. now split.
    + destruct (match_path concepts_pattern (url req)) as [m|] eqn:Hc.
      * rewrite (middleware_concept replace e req s _ Hu Hc) in H.
        destruct (concept_page e (group1 m) s) as [s1 [err|p]]; [discriminate|].
        destruct (fetch_index e) as [err|t]; [discriminate|].
        injection H as _ <-. now split.
      * rewrite (middleware_unmatched replace e req s Hu Hc) in H. discriminate.
Qed.

Lemma response_contract_witness :
  middleware replaceMetaTag env_custom req_alice initial =
  (initial,
   inr (Respond
          {| status := 200;
             headers := [(lit "Content-Type", lit "text/html")];
             body := substituted replaceMetaTag sample_template
                       (Str (lit "https://og.codecrafters.io/api/user_profile/" ++ lit "alice"))
                       (Str (lit "alice" ++ lit "'s CodeCrafters Profile"))
                       (Str (lit "View " ++ lit "alice"
                             ++ lit "'s profile on CodeCrafters")) |})).
Proof.
  exact (proj1 (response_contract replaceMetaTag env_custom req_alice initial)
               (lit "/users/alice") (lit "alice") eq_refl).
Defined.

(** C8 as stated fails: a matched request for which the read of the
    template throws gets no response at all: the middleware throws. *)
Lemma matched_request_without_template :
  match_path users_pattern (url req_alice) = Some (lit "/users/alice", lit "alice") /\
  fetch_index env_no_template = inl NetworkError /\
  middleware replaceMetaTag env_no_template req_alice initial = (initial, inl NetworkError).
Proof. repeat split. Qed.



(* ===================================================================== *)
(** ** Splitting and joining *)
(* ===================================================================== *)

Lemma join_split (sep : ascii) (s : text) : join [sep] (split sep s) = s.
Proof.
  induction s as [|c s IH]; [reflexivity|].
  cbn [split]. destruct (Ascii.eqb c sep) eqn:E.
  - apply Ascii.eqb_eq in E. subst c.
    destruct (split sep s) as [|w ws] eqn:Hs; [now apply split_nonempty in Hs|].
    rewrite join_cons2, IH. reflexivity.
  - destruct (split sep s) as [|w ws] eqn:Hs; [now apply split_nonempty in Hs|].
    now rewrite join_cons_char, IH.
Qed.

Lemma split_pieces_free (sep : ascii) (s : text) :
  Forall (fun w => ~ In sep w) (split sep s).
Proof.
  induction s as [|c s IH]; cbn [split].
  - constructor; [now intros []|constructor].
  - destruct (Ascii.eqb c sep) eqn:E.
    + constructor; [now intros []|exact IH].
    + destruct (split sep s) as [|w ws]; [repeat constructor|].
      * intros [->|[]]. now rewrite Ascii.eqb_refl in E.
      * inversion IH as [|? ? Hw Hws]; subst. constructor; [|exact Hws].
        intros [->|H]; [now rewrite Ascii.eqb_refl in E|auto].
Qed.

Lemma split_app_sep (sep : ascii) (w rest : text) :
  ~ In sep w -> split sep (w ++ sep :: rest) = w :: split sep rest.
Proof.
  induction w as [|c w IH]; intros Hw; cbn [app split].
  - now rewrite Ascii.eqb_refl.
  - destruct (Ascii.eqb c sep) eqn:E.
    + apply Ascii.eqb_eq in E. subst c. destruct Hw. now left.
    + rewrite IH; [reflexivity|]. intros H. apply Hw. now right.
Qed.

Lemma split_free (sep : ascii) (w : text) : ~ In sep w -> split sep w = [w].
Proof.
  induction w as [|c w IH]; intros Hw; cbn [split]; [reflexivity|].
  destruct (Ascii.eqb c sep) eqn:E.
  - apply Ascii.eqb_eq in E. subst c. destruct Hw. now left.
  - rewrite IH; [reflexivity|]. intros H. apply Hw. now right.
Qed.

Lemma split_join (sep : ascii) (ws : list text) :
  ws <> [] -> Forall (fun w => ~ In sep w) ws -> split sep (join [sep] ws) = ws.
Proof.
  induction ws as [|w ws IH]; [congruence|]. intros _ Hall.
  inversion Hall as [|? ? Hw Hws]; subst.
  destruct ws as [|w' ws].
  - now apply split_free.
  - rewrite join_cons2. cbn [app]. rewrite split_app_sep by exact Hw.
    f_equal. now apply IH.
Qed.

(** Induction on pieces taken two at a time. *)
Lemma pairs_ind (P : list text -> Prop) :
  P [] -> (forall t, P [t]) ->
  (forall u w rest, P rest -> P (u :: w :: rest)) ->
  forall parts, P parts.
Proof.
  intros H0 H1 H2.
  assert (H : forall parts, P parts /\ forall u, P (u :: parts)).
  { induction parts as [|x parts [IH IH']]; split; auto. }
  intros parts. apply H.
Qed.

(* ===================================================================== *)
(** ** The scan for meta tags *)
(* ===================================================================== *)

Lemma scan_in_tag (acc : text) (inq : bool) (l : text) :
  scan (Some (acc, inq)) l =
  match tag_end inq l with
  | Some (t, rest) => Tag (rev acc ++ t) :: scan None rest
  | None => [Unclosed (rev acc ++ l)]
  end.
Proof.
  revert acc inq; induction l as [|c l IH]; intros acc inq; cbn [scan tag_end].
  - now rewrite app_nil_r.
  - destruct (Ascii.eqb c dquote).
    + rewrite IH. destruct (tag_end (negb inq) l) as [[t rest]|];
        cbn [option_map fst snd rev]; now rewrite <- app_assoc.
    + destruct (Ascii.eqb c ">" && negb inq); [reflexivity|].
      rewrite IH. destruct (tag_end inq l) as [[t rest]|];
        cbn [option_map fst snd rev]; now rewrite <- app_assoc.
Qed.

Lemma is_space_plain (w : ascii) :
  is_space w = true -> Ascii.eqb w dquote = false /\ Ascii.eqb w ">" = false.
Proof.
  unfold is_space. cbn [existsb]. rewrite !orb_true_iff, !Nat.eqb_eq.
  intros H. split; apply Ascii.eqb_neq; intros ->; vm_compute in H;
    repeat (destruct H as [H|H]; try discriminate); exact H.
Qed.

Lemma opens_meta_inv (l : text) :
  opens_meta l = true ->
  exists w l0, l = lit "<meta" ++ w :: l0 /\ is_space w = true.
Proof.
  unfold opens_meta. destruct (strip_prefix (lit "<meta") l) as [[|w l0]|] eqn:E;
    try discriminate.
  intros Hw. apply strip_prefix_some in E. now exists w, l0.
Qed.

Lemma opens_meta_intro (w : ascii) (l0 : text) :
  is_space w = true -> opens_meta (lit "<meta" ++ w :: l0) = true.
Proof. intros Hw. unfold opens_meta. now rewrite strip_prefix_app. Qed.

Lemma tag_end_plain (c : ascii) (inq : bool) (l : text) :
  Ascii.eqb c dquote = false -> Ascii.eqb c ">" = false ->
  tag_end inq (c :: l) = option_map (fun r => (c :: fst r, snd r)) (tag_end inq l).
Proof. intros Hq Hg. cbn [tag_end]. now rewrite Hq, Hg. Qed.

Lemma tag_end_meta (w : ascii) (l0 : text) :
  is_space w = true ->
  tag_end false (lit "<meta" ++ w :: l0) =
  option_map (fun r => (lit "<meta" ++ w :: fst r, snd r)) (tag_end false l0).
Proof.
  intros Hw. destruct (is_space_plain w Hw) as [Hq Hg].
  change (lit "<meta") with ["<"; "m"; "e"; "t"; "a"]%char. cbn [app].
  rewrite (tag_end_plain "<" false _ eq_refl eq_refl),
          (tag_end_plain "m" false _ eq_refl eq_refl),
          (tag_end_plain "e" false _ eq_refl eq_refl),
          (tag_end_plain "t" false _ eq_refl eq_refl),
          (tag_end_plain "a" false _ eq_refl eq_refl),
          (tag_end_plain w false _ Hq Hg).
  destruct (tag_end false l0) as [[t r]|]; reflexivity.
Qed.

(** One step of the scan outside a tag. *)
Lemma tokenize_cons (c : ascii) (l : text) :
  tokenize (c :: l) =
  if opens_meta (c :: l)
  then match tag_end false (c :: l) with
       | Some (t, rest) => Tag t :: tokenize rest
       | None => [Unclosed (c :: l)]
       end
  else Chr c :: tokenize l.
Proof.
  unfold tokenize. cbn [scan].
  destruct (opens_meta (c :: l)) eqn:Ho; [|reflexivity].
  rewrite scan_in_tag.
  destruct (opens_meta_inv _ Ho) as (w & l0 & Hl & Hw).
  change (lit "<meta") with ["<"; "m"; "e"; "t"; "a"]%char in Hl.
  injection Hl as -> ->.
  rewrite (tag_end_plain "<" false _ eq_refl eq_refl).
  destruct (tag_end false _) as [[t r]|]; reflexivity.
Qed.

Lemma untokenize_scan (st : option (text * bool)) (l : text) :
  untokenize (scan st l) =
  match st with
  | None => l
  | Some (acc, _) => rev acc ++ l
  end.
Proof.
  revert st; induction l as [|c l IH]; intros [[acc inq]|]; cbn [scan].
  - unfold untokenize. cbn. now rewrite !app_nil_r.
  - reflexivity.
  - destruct (Ascii.eqb c dquote).
    + rewrite IH. cbn [rev]. now rewrite <- app_assoc.
    + destruct (Ascii.eqb c ">" && negb inq).
      * unfold untokenize in *. cbn [map List.concat render].
        rewrite (IH None). cbn [rev]. now rewrite <- app_assoc.
      * rewrite IH. cbn [rev]. now rewrite <- app_assoc.
  - destruct (opens_meta (c :: l)).
    + now rewrite IH.
    + unfold untokenize in *. cbn [map List.concat render]. now rewrite (IH None).
Qed.

(** The scan loses nothing. *)
Lemma untokenize_tokenize (t : text) : untokenize (tokenize t) = t.
Proof. apply (untokenize_scan None). Qed.

Lemma tag_end_split (inq : bool) (l t r : text) :
  tag_end inq l = Some (t, r) -> l = t ++ r /\ closed inq t /\ List.length r < List.length l.
Proof.
  revert inq t r; induction l as [|c l IH]; intros inq t r; [discriminate|].
  unfold closed. cbn [tag_end].
  destruct (Ascii.eqb c dquote) eqn:Hq.
  - destruct (tag_end (negb inq) l) as [[t' r']|] eqn:E; [|discriminate].
    cbn [option_map fst snd]. intros [= <- <-].
    destruct (IH _ _ _ E) as (-> & Hc & Hlen). cbn [tag_end app].
    rewrite Hq. unfold closed in Hc. rewrite Hc. cbn. repeat split. lia.
  - destruct (Ascii.eqb c ">" && negb inq) eqn:Hg.
    + intros [= <- <-]. cbn [tag_end app]. rewrite Hq, Hg. cbn. repeat split. lia.
    + destruct (tag_end inq l) as [[t' r']|] eqn:E; [|discriminate].
      cbn [option_map fst snd]. intros [= <- <-].
      destruct (IH _ _ _ E) as (-> & Hc & Hlen). cbn [tag_end app].
      rewrite Hq, Hg. unfold closed in Hc. rewrite Hc. cbn. repeat split. lia.
Qed.

Lemma tag_end_app (inq : bool) (l t r x : text) :
  tag_end inq l = Some (t, r) -> tag_end inq (l ++ x) = Some (t, r ++ x).
Proof.
  revert inq t r; induction l as [|c l IH]; intros inq t r; [discriminate|].
  cbn [tag_end app].
  destruct (Ascii.eqb c dquote).
  - destruct (tag_end (negb inq) l) as [[t' r']|] eqn:E; [|discriminate].
    cbn [option_map fst snd]. intros [= <- <-]. now rewrite (IH _ _ _ E).
  - destruct (Ascii.eqb c ">" && negb inq); [now intros [= <- <-]|].
    destruct (tag_end inq l) as [[t' r']|] eqn:E; [|discriminate].
    cbn [option_map fst snd]. intros [= <- <-]. now rewrite (IH _ _ _ E).
Qed.

Lemma closed_nil (inq : bool) : ~ closed inq [].
Proof. discriminate. Qed.

Lemma closed_skip (c : ascii) (inq : bool) (z : text) :
  Ascii.eqb c dquote = false -> Ascii.eqb c ">" && negb inq = false ->
  closed inq (c :: z) <-> closed inq z.
Proof.
  intros Hq Hg. unfold closed. cbn [tag_end]. rewrite Hq, Hg.
  destruct (tag_end inq z) as [[t r]|]; cbn [option_map fst snd]; split;
    try discriminate; intros [= -> ->]; reflexivity.
Qed.

Lemma closed_quote (inq : bool) (z : text) :
  closed inq (dquote :: z) <-> closed (negb inq) z.
Proof.
  unfold closed. cbn [tag_end]. rewrite Ascii.eqb_refl.
  destruct (tag_end (negb inq) z) as [[t r]|]; cbn [option_map fst snd]; split;
    try discriminate; intros [= -> ->]; reflexivity.
Qed.

Lemma closed_gt (z : text) : closed false (">"%char :: z) <-> z = [].
Proof.
  unfold closed. cbn [tag_end]. change (Ascii.eqb ">" dquote) with false.
  rewrite Ascii.eqb_refl. cbn [andb negb]. split.
  - now intros [= ->].
  - now intros ->.
Qed.

Lemma no_dquote_cons (c : ascii) (w : text) :
  no_dquote (c :: w) -> Ascii.eqb c dquote = false /\ no_dquote w.
Proof.
  intros H. split.
  - apply Ascii.eqb_neq. intros ->. apply H. now left.
  - intros Hw. apply H. now right.
Qed.

Lemma closed_quoted (w z : text) :
  no_dquote w -> closed true (w ++ dquote :: z) <-> closed false z.
Proof.
  induction w as [|c w IH]; intros Hw; cbn [app].
  - apply (closed_quote true).
  - apply no_dquote_cons in Hw as [Hc Hw].
    rewrite closed_skip; [now apply IH|exact Hc|apply andb_false_r].
Qed.

Lemma closed_true_free (w : text) : no_dquote w -> ~ closed true w.
Proof.
  induction w as [|c w IH]; intros Hw; [apply closed_nil|].
  apply no_dquote_cons in Hw as [Hc Hw].
  rewrite closed_skip; [now apply IH|exact Hc|apply andb_false_r].
Qed.

Lemma closed_unquoted (u z : text) :
  no_dquote u -> z <> [] ->
  closed false (u ++ z) <-> ~ In ">"%char u /\ closed false z.
Proof.
  intros Hu Hz. induction u as [|c u IH]; cbn [app].
  - split; [intros H; split; [now intros []|exact H]|now intros [_ H]].
  - apply no_dquote_cons in Hu as [Hc Hu]. specialize (IH Hu).
    destruct (Ascii.eqb c ">") eqn:Hg.
    + apply Ascii.eqb_eq in Hg. subst c. rewrite closed_gt. split.
      * intros H. now destruct u.
      * intros [H _]. destruct H. now left.
    + rewrite closed_skip, IH; [|exact Hc|now rewrite Hg]. split.
      * intros [Hn Hcl]. split; [|exact Hcl].
        intros [->|H]; [now rewrite Ascii.eqb_refl in Hg|auto].
      * intros [Hn Hcl]. split; [|exact Hcl]. intros H. apply Hn. now right.
Qed.

(* ===================================================================== *)
(** ** The substitution on one tag *)
(* ===================================================================== *)

Lemma set_content_head (c u : text) (rest : list text) :
  exists rest', set_content c (u :: rest) = u :: rest'.
Proof. destruct rest; cbn [set_content]; eexists; reflexivity. Qed.

Lemma rewrite_parts_head (a v c u : text) (rest : list text) :
  exists rest', rewrite_parts a v c (u :: rest) = u :: rest'.
Proof.
  unfold rewrite_parts. destruct (has_attr a v (u :: rest)).
  - apply set_content_head.
  - now exists rest.
Qed.

Lemma join_head (sep u : text) (rest : list text) :
  exists x, join sep (u :: rest) = u ++ x.
Proof.
  destruct rest.
  - exists []. cbn. now rewrite app_nil_r.
  - eexists. apply join_cons2.
Qed.

Lemma set_content_free (c : text) (parts : list text) :
  no_dquote c -> Forall no_dquote parts -> Forall no_dquote (set_content c parts).
Proof.
  intros Hc. induction parts as [| t | u w rest IH] using pairs_ind;
    intros H; cbn [set_content]; trivial.
  inversion H as [|? ? Hu H']; subst. inversion H' as [|? ? Hw Hrest]; subst.
  constructor; [exact Hu|]. constructor; [|now apply IH].
  now destruct (names (lit "content") u).
Qed.

Lemma rewrite_parts_free (a v c : text) (parts : list text) :
  no_dquote c -> Forall no_dquote parts -> Forall no_dquote (rewrite_parts a v c parts).
Proof.
  intros Hc H. unfold rewrite_parts. destruct (has_attr a v parts); [|exact H].
  now apply set_content_free.
Qed.

Lemma parts_of_free (raw : text) : Forall no_dquote (parts_of raw).
Proof. apply split_pieces_free. Qed.

Lemma parts_of_join (parts : list text) :
  parts <> [] -> Forall no_dquote parts -> parts_of (join [dquote] parts) = parts.
Proof. apply split_join. Qed.

Lemma rewrite_parts_nonempty (a v c : text) (parts : list text) :
  parts <> [] -> rewrite_parts a v c parts <> [].
Proof.
  destruct parts as [|u rest]; [congruence|]. intros _.
  destruct (rewrite_parts_head a v c u rest) as [rest' ->]. discriminate.
Qed.

(** The pieces of a rewritten tag are the rewritten pieces. *)
Lemma parts_of_rewrite_tag (a v c raw : text) :
  no_dquote c ->
  parts_of (rewrite_tag a v c raw) = rewrite_parts a v c (parts_of raw).
Proof.
  intros Hc. unfold rewrite_tag. apply parts_of_join.
  - apply rewrite_parts_nonempty, split_nonempty.
  - apply rewrite_parts_free; [exact Hc|apply parts_of_free].
Qed.

Lemma set_content_twice (c c' : text) (parts : list text) :
  set_content c' (set_content c parts) = set_content c' parts.
Proof.
  induction parts as [| t | u w rest IH] using pairs_ind; cbn [set_content]; trivial.
  rewrite IH. now destruct (names (lit "content") u).
Qed.

Lemma rewrite_parts_twice (a v c : text) (parts : list text) :
  rewrite_parts a v c (rewrite_parts a v c parts) = rewrite_parts a v c parts.
Proof.
  unfold rewrite_parts at 2 3. destruct (has_attr a v parts) eqn:E.
  - unfold rewrite_parts. destruct (has_attr a v (set_content c parts));
      [apply set_content_twice|reflexivity].
  - unfold rewrite_parts. now rewrite E.
Qed.

(** Substituting in a tag that has been substituted changes nothing. *)
Lemma rewrite_tag_twice (a v c raw : text) :
  no_dquote c ->
  rewrite_tag a v c (rewrite_tag a v c raw) = rewrite_tag a v c raw.
Proof.
  intros Hc. unfold rewrite_tag at 1.
  rewrite (parts_of_rewrite_tag a v c raw Hc), rewrite_parts_twice. reflexivity.
Qed.

Lemma closed_set_content (c : text) (parts : list text) :
  no_dquote c -> Forall no_dquote parts ->
  closed false (join [dquote] parts) ->
  closed false (join [dquote] (set_content c parts)).
Proof.
  intros Hc. induction parts as [| t | u w rest IH] using pairs_ind;
    intros Hall Hcl; cbn [set_content]; trivial.
  inversion Hall as [|? ? Hu H']; subst. inversion H' as [|? ? Hw Hrest]; subst.
  set (w' := if names (lit "content") u then c else w).
  assert (Hw' : no_dquote w') by (subst w'; now destruct (names (lit "content") u)).
  destruct rest as [|r rs].
  - exfalso. cbn [join app] in Hcl.
    apply closed_unquoted in Hcl as [_ Hcl]; [|exact Hu|discriminate].
    apply closed_quote in Hcl. now apply closed_true_free in Hcl.
  - destruct (set_content_head c r rs) as [rs' E].
    rewrite E in *. rewrite !join_cons2 in *. cbn [app] in *.
    apply closed_unquoted in Hcl as [Hg Hcl]; [|exact Hu|discriminate].
    apply closed_quote, closed_quoted in Hcl; [|exact Hw].
    apply closed_unquoted; [exact Hu|discriminate|]. split; [exact Hg|].
    apply closed_quote, closed_quoted; [exact Hw'|]. cbn [negb].
    now apply IH.
Qed.

Lemma closed_rewrite_tag (a v c raw : text) :
  no_dquote c -> closed false raw -> closed false (rewrite_tag a v c raw).
Proof.
  intros Hc Hcl. unfold rewrite_tag, rewrite_parts.
  destruct (has_attr a v (parts_of raw)).
  - apply closed_set_content; [exact Hc|apply parts_of_free|].
    unfold parts_of. now rewrite join_split.
  - unfold parts_of. now rewrite join_split.
Qed.

Lemma split_plain (sep c : ascii) (s : text) :
  Ascii.eqb c sep = false ->
  exists w ws, split sep s = w :: ws /\ split sep (c :: s) = (c :: w) :: ws.
Proof.
  intros Hc. cbn [split]. rewrite Hc.
  destruct (split sep s) as [|w ws] eqn:E; [now apply split_nonempty in E|].
  now exists w, ws.
Qed.

(** A rewritten tag still opens as a meta tag. *)
Lemma rewrite_tag_meta (a v c raw : text) :
  opens_meta raw = true ->
  exists w x, rewrite_tag a v c raw = lit "<meta" ++ w :: x /\ is_space w = true.
Proof.
  intros Ho. destruct (opens_meta_inv _ Ho) as (w & l0 & -> & Hw).
  destruct (is_space_plain w Hw) as [Hq _].
  unfold rewrite_tag, parts_of.
  change (lit "<meta") with ["<"; "m"; "e"; "t"; "a"]%char. cbn [app].
  destruct (@split_plain dquote w l0 Hq) as (u0 & r0 & _ & E0).
  destruct (@split_plain dquote "a" (w :: l0) eq_refl) as (u1 & r1 & E1 & E1').
  destruct (@split_plain dquote "t" ("a" :: w :: l0)%char eq_refl) as (u2 & r2 & E2 & E2').
  destruct (@split_plain dquote "e" ("t" :: "a" :: w :: l0)%char eq_refl)
    as (u3 & r3 & E3 & E3').
  destruct (@split_plain dquote "m" ("e" :: "t" :: "a" :: w :: l0)%char eq_refl)
    as (u4 & r4 & E4 & E4').
  destruct (@split_plain dquote "<" ("m" :: "e" :: "t" :: "a" :: w :: l0)%char eq_refl)
    as (u5 & r5 & E5 & E5').
  rewrite E5'. rewrite E4' in E5. injection E5 as <- <-.
  rewrite E3' in E4. injection E4 as <- <-.
  rewrite E2' in E3. injection E3 as <- <-.
  rewrite E1' in E2. injection E2 as <- <-.
  rewrite E0 in E1. injection E1 as <- <-.
  match goal with
  | |- context [rewrite_parts a v c (?u :: ?r)] =>
      destruct (rewrite_parts_head a v c u r) as [rest' E];
      destruct (join_head [dquote] u rest') as [x E']
  end.
  exists w, (u0 ++ x). split; [|exact Hw]. unfold text in *. now rewrite E, E'.
Qed.

(* ===================================================================== *)
(** ** Scanning a substituted text *)
(* ===================================================================== *)

Lemma tokenize_canon (t : text) : canon (tokenize t).
Proof.
  assert (H : forall n t, List.length t <= n -> canon (tokenize t)).
  { induction n as [|n IH]; intros [|c l] Hlen; try (cbn in Hlen; lia);
      try apply canon_nil.
    rewrite tokenize_cons. destruct (opens_meta (c :: l)) eqn:Ho.
    - destruct (opens_meta_inv _ Ho) as (w & l0 & Hl & Hw).
      destruct (tag_end false (c :: l)) as [[tg rest]|] eqn:E.
      + destruct (tag_end_split _ _ _ _ E) as (Hs & Hcl & Hlt).
        apply canon_tag; [|exact Hcl|apply IH; cbn in Hlen, Hlt; lia].
        rewrite Hl, tag_end_meta in E by exact Hw.
        destruct (tag_end false l0) as [[t0 r0]|]; [|discriminate].
        cbn [option_map fst snd] in E. injection E as <- _.
        now apply opens_meta_intro.
      + now apply canon_unclosed.
    - apply canon_chr; [|apply IH; cbn in Hlen; lia].
      now rewrite untokenize_tokenize. }
  now apply (H (List.length t)).
Qed.

Lemma opens_meta_app (raw x : text) :
  opens_meta raw = true -> opens_meta (raw ++ x) = true.
Proof.
  intros Ho. destruct (opens_meta_inv _ Ho) as (w & l0 & -> & Hw).
  rewrite <- app_assoc. cbn [app]. now apply opens_meta_intro.
Qed.

(** Scanning what canonical tokens print gives the tokens back. *)
Lemma canon_tokenize (ks : list token) : canon ks -> tokenize (untokenize ks) = ks.
Proof.
  induction 1 as [| c ks Ho _ IH | raw ks Ho Hcl _ IH | raw Ho He].
  - reflexivity.
  - change (untokenize (Chr c :: ks)) with (c :: untokenize ks).
    now rewrite tokenize_cons, Ho, IH.
  - change (untokenize (Tag raw :: ks)) with (raw ++ untokenize ks).
    pose proof (opens_meta_app _ (untokenize ks) Ho) as Ho'.
    pose proof (tag_end_app _ _ _ _ (untokenize ks) Hcl) as He.
    destruct raw as [|c raw]; [discriminate|]. cbn [app] in *.
    now rewrite tokenize_cons, Ho', He, IH.
  - change (untokenize [Unclosed raw]) with (raw ++ []). rewrite app_nil_r.
    destruct raw as [|c raw]; [discriminate|].
    now rewrite tokenize_cons, Ho, He.
Qed.

Lemma opens_meta_firstn (l : text) : opens_meta l = opens_meta (firstn 6 l).
Proof.
  do 6 (destruct l as [|? l]; [reflexivity|]).
  unfold opens_meta. cbn [firstn lit list_ascii_of_string strip_prefix].
  repeat (destruct (Ascii.eqb _ _); [|reflexivity]). reflexivity.
Qed.

Lemma opens_meta_cons_firstn (c : ascii) (l : text) :
  opens_meta (c :: l) = opens_meta (c :: firstn 5 l).
Proof. apply (opens_meta_firstn (c :: l)). Qed.

Section Rewritten.

Variables a v c : text.
Hypothesis c_free : no_dquote c.

(** Substitution leaves the first five characters of what follows a
    character outside a tag as they are. *)
Lemma rewritten_head (ks : list token) :
  canon ks ->
  forall n, n <= 5 ->
  firstn n (untokenize (map (rewrite_token a v c) ks)) = firstn n (untokenize ks).
Proof.
  induction 1 as [| ch ks Ho _ IH | raw ks Ho Hcl _ IH | raw Ho He]; intros n Hn.
  - reflexivity.
  - cbn [map rewrite_token].
    change (untokenize (Chr ch :: ?k)) with (ch :: untokenize k).
    destruct n as [|n]; [reflexivity|]. cbn [firstn]. f_equal. apply IH. lia.
  - cbn [map rewrite_token].
    change (untokenize (Tag ?r :: ?k)) with (r ++ untokenize k).
    destruct (rewrite_tag_meta a v c _ Ho) as (w & x & -> & _).
    destruct (opens_meta_inv _ Ho) as (w' & l0 & -> & _).
    change (lit "<meta") with ["<"; "m"; "e"; "t"; "a"]%char. cbn [app].
    do 5 (destruct n as [|n]; [reflexivity|]; cbn [firstn]; f_equal).
    destruct n; [reflexivity|lia].
  - reflexivity.
Qed.

Lemma rewritten_canon (ks : list token) :
  canon ks -> canon (map (rewrite_token a v c) ks).
Proof.
  intros H. induction H as [| ch ks Ho Hk IH | raw ks Ho Hcl Hk IH | raw Ho He];
    cbn [map rewrite_token].
  - apply canon_nil.
  - apply canon_chr; [|exact IH].
    rewrite opens_meta_cons_firstn in Ho |- *.
    now rewrite (rewritten_head ks Hk) by lia.
  - apply canon_tag; [|now apply closed_rewrite_tag|exact IH].
    destruct (rewrite_tag_meta a v c _ Ho) as (w & x & -> & Hw).
    now apply opens_meta_intro.
  - now apply canon_unclosed.
Qed.

(** The tokens of a substituted text are the substituted tokens. *)
Lemma tokenize_put_content (t : text) :
  tokenize (put_content t a v c) = map (rewrite_token a v c) (tokenize t).
Proof. apply canon_tokenize, rewritten_canon, tokenize_canon. Qed.

Lemma rewrite_token_twice (k : token) :
  rewrite_token a v c (rewrite_token a v c k) = rewrite_token a v c k.
Proof.
  destruct k as [ch | raw | raw]; cbn [rewrite_token]; trivial.
  now rewrite rewrite_tag_twice.
Qed.

End Rewritten.

Lemma no_dquote_check (c : text) :
  forallb (fun x => negb (Ascii.eqb x dquote)) c = true -> no_dquote c.
Proof.
  intros H Hin. rewrite forallb_forall in H. specialize (H _ Hin).
  now rewrite Ascii.eqb_refl in H.
Qed.

Lemma no_dquote_app (x y : text) : no_dquote x -> no_dquote y -> no_dquote (x ++ y).
Proof. intros Hx Hy H. apply in_app_or in H. destruct H; auto. Qed.













Lemma attr_values_set_content (c : text) (parts : list text) :
  attr_values (lit "content") (set_content c parts) =
  map (fun _ => unescape c) (attr_values (lit "content") parts).
Proof.
  induction parts as [| t | u w rest IH] using pairs_ind;
    cbn [set_content attr_values]; trivial.
  destruct (names (lit "content") u); cbn [map]; now rewrite IH.
Qed.






(* ===================================================================== *)
(** ** Writing and reading a content *)
(* ===================================================================== *)

Lemma escape_free (c : text) : no_dquote (escape c).
Proof.
  induction c as [|x c IH]; [now intros []|].
  cbn [escape flat_map]. apply no_dquote_app; [|exact IH].
  unfold escape_char. destruct (Ascii.eqb x dquote) eqn:E.
  - apply no_dquote_check. reflexivity.
  - destruct (Ascii.eqb x "&").
    + apply no_dquote_check. reflexivity.
    + intros [->|[]]. now rewrite Ascii.eqb_refl in E.
Qed.

Lemma unescape_plain (x : ascii) (s : text) :
  Ascii.eqb x "&" = false -> unescape (x :: s) = x :: unescape s.
Proof. intros H. cbn [unescape]. now rewrite H. Qed.

Lemma unescape_amp (s : text) : unescape (lit "&amp;" ++ s) = "&"%char :: unescape s.
Proof. reflexivity. Qed.

Lemma unescape_quot (s : text) : unescape (lit "&quot;" ++ s) = dquote :: unescape s.
Proof. reflexivity. Qed.

(** What is written between the quotes reads back as the content. *)
Lemma unescape_escape (c : text) : unescape (escape c) = c.
Proof.
  induction c as [|x c IH]; [reflexivity|].
  cbn [escape flat_map]. fold (escape c). unfold escape_char.
  destruct (Ascii.eqb x dquote) eqn:Eq.
  - apply Ascii.eqb_eq in Eq. subst x. now rewrite unescape_quot, IH.
  - destruct (Ascii.eqb x "&") eqn:Ea.
    + apply Ascii.eqb_eq in Ea. subst x. now rewrite unescape_amp, IH.
    + cbn [app]. now rewrite (unescape_plain x _ Ea), IH.
Qed.




Lemma Forall2_map_r {A B : Type} (R : A -> B -> Prop) (f : A -> B) (l : list A) :
  (forall x, R x (f x)) -> Forall2 R l (map f l).
Proof. intros H. induction l; cbn [map]; constructor; auto. Qed.




Lemma meta_tags_put_content (a v c t : text) :
  no_dquote c ->
  meta_tags (put_content t a v c) = map (rewrite_parts a v c) (meta_tags t).
Proof.
  intros Hc. unfold meta_tags. rewrite (tokenize_put_content a v c Hc).
  induction (tokenize t) as [|[ch | raw | raw] ks IH];
    cbn [map flat_map app rewrite_token]; trivial.
  now rewrite IH, (parts_of_rewrite_tag a v c raw Hc).
Qed.

(* ===================================================================== *)
(** ** The claims on the substitution *)
(* ===================================================================== *)

(** C9.  For every HTML text, every attribute name and value and every
    replacement content, applying the substitution twice gives the text
    that applying it once gives.  One application keeps the meta tags one
    for one: a tag that carries the pair has the content as the value of
    each of its [content] attributes, as many as before, and any other
    tag is as it was. *)
Theorem replace_meta_tag_idempotent (t a v c : text) :
  replace_meta_tag (replace_meta_tag t a v c) a v c = replace_meta_tag t a v c /\
  Forall2 (fun parts0 parts =>
             (has_attr a v parts0 = true ->
              attr_values (lit "content") parts =
                map (fun _ => c) (attr_values (lit "content") parts0)) /\
             (has_attr a v parts0 = false -> parts = parts0))
          (meta_tags t) (meta_tags (replace_meta_tag t a v c)).
Proof.
  pose proof (escape_free c) as Hc. unfold replace_meta_tag. split.
  - unfold put_content at 1.
    rewrite (tokenize_put_content a v (escape c) Hc), map_map.
    unfold put_content. f_equal. apply map_ext. intros k.
    now apply rewrite_token_twice.
  - rewrite (meta_tags_put_content a v (escape c) t Hc).
    apply Forall2_map_r. intros parts0. unfold rewrite_parts.
    split; intros H; rewrite H; [|reflexivity].
    now rewrite attr_values_set_content, unescape_escape.
Qed.

(** A content with double quotes and an ampersand in it, substituted twice:
    the tag reads back as the content, and the text is that of one
    substitution. *)
Example quoted_content_twice :
  map content_of
      (meta_tags
         (replace_meta_tag
            (replace_meta_tag (html "<meta name='description' content='x'>")
               (lit "name") (lit "description") (html "a' & b='c"))
            (lit "name") (lit "description") (html "a' & b='c")))
  = [Some (html "a' & b='c")] /\
  replace_meta_tag (html "<meta name='description' content='x'>")
    (lit "name") (lit "description") (html "a' & b='c")
  = html "<meta name='description' content='a&quot; &amp; b=&quot;c'>".
Proof. split; vm_compute; reflexivity. Qed.


(** The seven tags of the sample template after the substitutions for a
    user, with the one tag that is not targeted. *)
Example sample_template_rewritten :
  map content_of
      (meta_tags (responseText replaceMetaTag sample_template (user_page (lit "alice"))))
  = [ None;
      Some (lit "View alice's profile on CodeCrafters");
      Some (lit "alice's CodeCrafters Profile");
      Some (lit "View alice's profile on CodeCrafters");
      Some (lit "https://og.codecrafters.io/api/user_profile/alice");
      Some (lit "alice's CodeCrafters Profile");
      Some (lit "View alice's profile on CodeCrafters");
      Some (lit "https://og.codecrafters.io/api/user_profile/alice") ].
Proof. vm_compute. reflexivity. Qed.





(** The case of the spec's test list: the service returns "Custom Title"
    and "Custom desc", and these are the contents of the [og:title] and
    [og:description] tags of the answer; a returned title with double
    quotes in it is the content of the [og:title] tag just the same. *)
Example custom_title_in_answer :
  map content_of
      (filter (has_attr (lit "property") (lit "og:title"))
              (meta_tags (response_body
                            (middleware replaceMetaTag env_custom req_concept initial))))
  = [Some (lit "Custom Title")] /\
  map content_of
      (filter (has_attr (lit "property") (lit "og:description"))
              (meta_tags (response_body
                            (middleware replaceMetaTag env_custom req_concept initial))))
  = [Some (lit "Custom desc")] /\
  map content_of
      (filter (has_attr (lit "property") (lit "og:title"))
              (meta_tags (response_body
                            (middleware replaceMetaTag env_quoted req_concept initial))))
  = [Some (html "What is 'DNS'?")].
Proof. repeat split; vm_compute; reflexivity. Qed.

(* ===================================================================== *)
(** ** Further facts on the middleware *)
(* ===================================================================== *)

(** X1.  The match of a route pattern is the leftmost one and its segment
    the longest: the segment is a non-empty run of characters other than
    [/] and [?], it ends at the end of the URL or right before a [/] or
    [?], and no occurrence of the pattern followed by a segment character
    starts earlier in the URL. *)
Theorem match_path_leftmost_longest (p s full seg : text) :
  match_path p s = Some (full, seg) ->
  full = p ++ seg /\ seg <> [] /\ forallb segment_char seg = true /\
  exists pre rest,
    s = pre ++ p ++ seg ++ rest /\
    (rest = [] \/ exists c r, rest = c :: r /\ segment_char c = false) /\
    forall a c b, s = a ++ p ++ c :: b -> segment_char c = true ->
                  List.length pre <= List.length a.
Proof.
  revert full seg. induction s as [|x s IH]; intros full seg H; [discriminate|].
  cbn [match_path] in H.
  assert (Hrec : (forall c b, x :: s = p ++ c :: b -> segment_char c = true -> False) ->
                 match_path p s = Some (full, seg) ->
          full = p ++ seg /\ seg <> [] /\ forallb segment_char seg = true /\
          exists pre rest,
            x :: s = pre ++ p ++ seg ++ rest /\
            (rest = [] \/ exists c r, rest = c :: r /\ segment_char c = false) /\
            forall a c b, x :: s = a ++ p ++ c :: b -> segment_char c = true ->
                          List.length pre <= List.length a).
  { intros Hhere H'.
    destruct (IH _ _ H') as (Hf & Hne & Hall & pre & rest & Hs & Hr & Hleft).
    repeat split; trivial. exists (x :: pre), rest. split; [|split; [exact Hr|]].
    - cbn [app]. now rewrite Hs.
    - intros [|y a] c b Ha Hc.
      + exfalso. exact (Hhere c b Ha Hc).
      + cbn [app] in Ha. injection Ha as _ Ha. cbn [List.length].
        apply le_n_S. exact (Hleft a c b Ha Hc). }
  destruct (strip_prefix p (x :: s)) as [rest0|] eqn:Hp.
  - destruct (take_while segment_char rest0) as [|c0 seg0] eqn:Ht.
    + apply Hrec; [|exact H]. intros c b Hxs Hc.
      rewrite Hxs, strip_prefix_app in Hp. injection Hp as <-.
      cbn [take_while] in Ht. rewrite Hc in Ht. discriminate.
    + injection H as <- <-. apply strip_prefix_some in Hp.
      destruct (take_while_split segment_char rest0) as (rest & Hr0 & Hr).
      repeat split.
      * discriminate.
      * rewrite <- Ht. apply take_while_all.
      * exists [], rest. split; [|split; [exact Hr|]].
        -- rewrite Ht in Hr0. cbn [app]. now rewrite Hp, Hr0.
        -- intros a c b _ _. cbn [List.length]. lia.
  - apply Hrec; [|exact H]. intros c b Hxs Hc.
    rewrite Hxs, strip_prefix_app in Hp. discriminate.
Qed.

Lemma match_path_leftmost_longest_witness :
  exists pre rest,
    lit "https://codecrafters.io/users/alice/users/bob?tab=1" =
      pre ++ users_pattern ++ lit "alice" ++ rest.
Proof.
  destruct (match_path_leftmost_longest users_pattern
              (lit "https://codecrafters.io/users/alice/users/bob?tab=1")
              (lit "/users/alice") (lit "alice") eq_refl)
    as (_ & _ & _ & pre & rest & Hs & _).
  now exists pre, rest.
Defined.

(** X2.  The users pattern is tried first: a URL in which both patterns
    match is served as the profile of the user segment; the concept
    service is not asked, nothing is logged and no variable is assigned. *)
Theorem user_route_takes_precedence
    (replace : text -> text -> text -> js_value -> text)
    (e : env) (req : request) (s : state) (full username full' slug : text) :
  match_path users_pattern (url req) = Some (full, username) ->
  match_path concepts_pattern (url req) = Some (full', slug) ->
  middleware replace e req s =
  match fetch_index e with
  | inr tpl =>
      (s, inr (Respond (new_Response (responseText replace tpl (user_page username))
                          html_headers)))
  | inl err => (s, inl err)
  end.
Proof. intros Hu _. exact (middleware_user replace e req s _ Hu). Qed.

Lemma user_route_takes_precedence_witness :
  response_body
    (middleware replaceMetaTag env_custom
       {| url := lit "https://codecrafters.io/concepts/dns/users/alice" |} initial) =
  responseText replaceMetaTag sample_template (user_page (lit "alice")).
Proof.
  rewrite (user_route_takes_precedence replaceMetaTag env_custom
             {| url := lit "https://codecrafters.io/concepts/dns/users/alice" |} initial
             (lit "/users/alice") (lit "alice") (lit "/concepts/dns") (lit "dns")
             eq_refl eq_refl).
  reflexivity.
Defined.

Lemma concept_page_cases (e : env) (slug : text) (s : state) :
  exists s' p,
    concept_page e slug s = (s', inr p) /\
    pageImageUrl p = Str (lit "https://og.codecrafters.io/api/concept/" ++ slug) /\
    conceptTitle s' = pageTitle p /\ conceptDescription s' = pageDescription p /\
    ((exists err,
        pageTitle p = Str (fallback_title slug) /\
        pageDescription p = Str (fallback_description slug) /\
        console s' = console s ++
                     [console_error [AError err];
                      console_log [AText (lit "ignoring error for now")]])
     \/
     (exists data,
        fetch_json e (concept_data_url slug) = inr data /\
        get_property data (lit "title") = inr (pageTitle p) /\
        get_property data (lit "description_markdown") = inr (pageDescription p) /\
        console s' = console s)).
Proof.
  destruct (fetch_json e (concept_data_url slug)) as [err|data] eqn:Hf.
  - rewrite (concept_page_fallback e slug s err (or_introl Hf)).
    eexists _, _. repeat split. left. exists err. repeat split.
  - destruct data as [| b | n | str | items | fields].
    + rewrite (concept_page_fallback e slug s TypeError (or_intror (conj Hf eq_refl))).
      eexists _, _. repeat split. left. exists TypeError. repeat split.
    + unfold concept_page, bind, try_catch, throw_or, set_conceptTitle,
        set_conceptDescription, get_conceptTitle, get_conceptDescription, log, ret.
      cbn [console conceptTitle conceptDescription]. rewrite Hf.
      eexists _, _. repeat split. right. eexists. repeat split.
    + unfold concept_page, bind, try_catch, throw_or, set_conceptTitle,
        set_conceptDescription, get_conceptTitle, get_conceptDescription, log, ret.
      cbn [console conceptTitle conceptDescription]. rewrite Hf.
      eexists _, _. repeat split. right. eexists. repeat split.
    + unfold concept_page, bind, try_catch, throw_or, set_conceptTitle,
        set_conceptDescription, get_conceptTitle, get_conceptDescription, log, ret.
      cbn [console conceptTitle conceptDescription]. rewrite Hf.
      eexists _, _. repeat split. right. eexists. repeat split.
    + unfold concept_page, bind, try_catch, throw_or, set_conceptTitle,
        set_conceptDescription, get_conceptTitle, get_conceptDescription, log, ret.
      cbn [console conceptTitle conceptDescription]. rewrite Hf.
      eexists _, _. repeat split. right. eexists. repeat split.
    + rewrite (concept_page_object e slug s fields Hf).
      eexists _, _. repeat split. right. eexists. repeat split.
Qed.

(** X3.  The concept branch never throws and never ends half-way: either
    both the title and the description are the slug-derived fallbacks and
    the error and the notice were logged, or both are what the answer of
    the service holds under [title] and [description_markdown] and
    nothing was logged; the image URL is made from the slug in both
    cases. *)
Theorem concept_metadata_all_or_nothing (e : env) (slug : text) (s : state) :
  exists s' p,
    concept_page e slug s = (s', inr p) /\
    pageImageUrl p = Str (lit "https://og.codecrafters.io/api/concept/" ++ slug) /\
    ((exists err,
        pageTitle p = Str (fallback_title slug) /\
        pageDescription p = Str (fallback_description slug) /\
        console s' = console s ++
                     [console_error [AError err];
                      console_log [AText (lit "ignoring error for now")]])
     \/
     (exists data,
        fetch_json e (concept_data_url slug) = inr data /\
        get_property data (lit "title") = inr (pageTitle p) /\
        get_property data (lit "description_markdown") = inr (pageDescription p) /\
        console s' = console s)).
Proof.
  destruct (concept_page_cases e slug s) as (s' & p & H & Hi & _ & _ & Hc).
  now exists s', p.
Qed.

(** X4.  On a concept route where the service answers with JSON that is
    neither an object nor [null] (a string, a number, a boolean or an
    array), reading the two fields throws nothing and gives [undefined]
    twice: the answer is built with an undefined title and description,
    the fallbacks are lost, and nothing is logged. *)
Theorem primitive_answer_gives_undefined
    (replace : text -> text -> text -> js_value -> text)
    (e : env) (req : request) (s : state) (full slug tpl : text) (data : json) :
  match_path users_pattern (url req) = None ->
  match_path concepts_pattern (url req) = Some (full, slug) ->
  fetch_json e (concept_data_url slug) = inr data ->
  match data with
  | JNull | JObject _ => False
  | _ => True
  end ->
  fetch_index e = inr tpl ->
  middleware replace e req s =
  ({| console := console s; conceptTitle := Undefined; conceptDescription := Undefined |},
   inr (Respond (new_Response
          (responseText replace tpl
             {| pageImageUrl := Str (lit "https://og.codecrafters.io/api/concept/" ++ slug);
                pageTitle := Undefined;
                pageDescription := Undefined |})
          html_headers))).
Proof.
  intros Hu Hc Hf Hd Ht.
  rewrite (middleware_concept replace e req s _ Hu Hc). cbn [group1 snd].
  unfold concept_page, bind, try_catch, throw_or, set_conceptTitle,
    set_conceptDescription, get_conceptTitle, get_conceptDescription, log, ret.
  cbn [console conceptTitle conceptDescription]. rewrite Hf, Ht.
  destruct data; try contradiction; reflexivity.
Qed.

Lemma primitive_answer_gives_undefined_witness :
  conceptTitle
    (fst (middleware replaceMetaTag
            {| fetch_json := fun _ => inr (JArray [JString (lit "Custom Title")]);
               fetch_index := inr sample_template |}
            req_concept initial)) = Undefined.
Proof.
  rewrite (primitive_answer_gives_undefined replaceMetaTag
             {| fetch_json := fun _ => inr (JArray [JString (lit "Custom Title")]);
                fetch_index := inr sample_template |}
             req_concept initial
             (lit "/concepts/network-protocols") (lit "network-protocols")
             sample_template (JArray [JString (lit "Custom Title")])
             eq_refl eq_refl eq_refl I eq_refl).
  reflexivity.
Defined.

(** X5.  The middleware throws exactly when one of the patterns matches
    and the read of the template throws, and what it throws is the error
    of that read: no error of the concept service ever reaches the caller,
    and an unmatched request never fails. *)
Theorem throws_iff_template_unreadable
    (replace : text -> text -> text -> js_value -> text)
    (e : env) (req : request) (s : state) (err : js_error) :
  (exists s', middleware replace e req s = (s', inl err)) <->
  ((match_path users_pattern (url req) <> None \/
    match_path concepts_pattern (url req) <> None) /\
   fetch_index e = inl err).
Proof.
  destruct (match_path users_pattern (url req)) as [m|] eqn:Hu.
  - rewrite (middleware_user replace e req s _ Hu). split.
    + intros [s' H]. split; [left; discriminate|].
      destruct (fetch_index e) as [err'|tpl]; [|discriminate]. now injection H as _ ->.
    + intros [_ ->]. now exists s.
  - destruct (match_path concepts_pattern (url req)) as [m|] eqn:Hc.
    + rewrite (middleware_concept replace e req s _ Hu Hc).
      destruct (concept_page_returns e (group1 m) s) as (s1 & p & -> & _). split.
      * intros [s' H]. split; [right; discriminate|].
        destruct (fetch_index e) as [err'|tpl]; [|discriminate]. now injection H as _ ->.
      * intros [_ ->]. now exists s1.
    + rewrite (middleware_unmatched replace e req s Hu Hc). split.
      * intros [s' H]. discriminate.
      * intros [[H|H] _]; now destruct H.
Qed.

(** X6.  The middleware reads the outside world at two places only: the
    template, and, on a concept route, the concept-data URL made from the
    slug.  Two environments that agree on these give the same result and
    the same log. *)
Theorem reads_template_and_slug_data_only
    (replace : text -> text -> text -> js_value -> text)
    (e e' : env) (req : request) (s : state) :
  fetch_index e = fetch_index e' ->
  match match_path users_pattern (url req), match_path concepts_pattern (url req) with
  | None, Some m =>
      fetch_json e (concept_data_url (group1 m)) =
      fetch_json e' (concept_data_url (group1 m))
  | _, _ => True
  end ->
  middleware replace e req s = middleware replace e' req s.
Proof.
  intros Ht Hj.
  destruct (match_path users_pattern (url req)) as [m|] eqn:Hu.
  - now rewrite !(middleware_user replace _ req s _ Hu), Ht.
  - destruct (match_path concepts_pattern (url req)) as [m|] eqn:Hc.
    + rewrite !(middleware_concept replace _ req s _ Hu Hc), Ht.
      unfold concept_page, bind, try_catch, throw_or. now rewrite Hj.
    + now rewrite !(middleware_unmatched replace _ req s Hu Hc).
Qed.

Lemma reads_template_and_slug_data_only_witness :
  middleware replaceMetaTag env_custom req_concept initial =
  middleware replaceMetaTag
    {| fetch_json := fun u =>
         if text_eqb u (concept_data_url (lit "network-protocols"))
         then inr (JObject custom_fields) else inl NetworkError;
       fetch_index := inr sample_template |}
    req_concept initial.
Proof.
  apply reads_template_and_slug_data_only; [reflexivity|].
  vm_compute. reflexivity.
Defined.

(** X7.  An invocation only adds to the console, at its end, and what it
    adds is fixed by the route: nothing on a user route; the one error
    naming the URL when no pattern matches; on a concept route the error
    of the concept service followed by the notice that it is ignored when
    the fetch or the parse throws or the answer is [null], and nothing
    when any other answer arrives. *)
Theorem console_only_grows
    (replace : text -> text -> text -> js_value -> text)
    (e : env) (req : request) (s : state) :
  console (fst (middleware replace e req s)) =
  console s ++
  match match_path users_pattern (url req), match_path concepts_pattern (url req) with
  | Some _, _ => []
  | None, None =>
      [console_error
         [AText (lit "Unable to parse username or concept slug from the URL:");
          AText (url req)]]
  | None, Some m =>
      match fetch_json e (concept_data_url (group1 m)) with
      | inl err =>
          [console_error [AError err];
           console_log [AText (lit "ignoring error for now")]]
      | inr JNull =>
          [console_error [AError TypeError];
           console_log [AText (lit "ignoring error for now")]]
      | inr _ => []
      end
  end.
Proof.
  destruct (match_path users_pattern (url req)) as [m|] eqn:Hu.
  - rewrite (middleware_user replace e req s _ Hu), app_nil_r.
    now destruct (fetch_index e).
  - destruct (match_path concepts_pattern (url req)) as [m|] eqn:Hc.
    + rewrite (middleware_concept replace e req s _ Hu Hc).
      destruct (fetch_json e (concept_data_url (group1 m))) as [err|data] eqn:Hf.
      * rewrite (concept_page_fallback e _ s err (or_introl Hf)).
        now destruct (fetch_index e).
      * destruct (json_eq_null data) as [->|Hn].
        -- rewrite (concept_page_fallback e _ s TypeError (or_intror (conj Hf eq_refl))).
           now destruct (fetch_index e).
        -- destruct (get_property_defined data (lit "title") Hn) as [t Ht].
           destruct (get_property_defined data (lit "description_markdown") Hn) as [d Hd].
           rewrite (concept_page_data e _ s data t d Hf Ht Hd).
           destruct data; try (now destruct Hn);
             destruct (fetch_index e); cbn [fst console]; now rewrite app_nil_r.
    + now rewrite (middleware_unmatched replace e req s Hu Hc).
Qed.

(* ===================================================================== *)
(** ** Further facts on the fallback title *)
(* ===================================================================== *)

Lemma fallback_title_title_case (slug : text) :
  fallback_title slug = title_case true slug.
Proof.
  unfold fallback_title. rewrite <- title_case_words.
  destruct (split "-" slug) as [|w ws] eqn:Hs; [|reflexivity].
  now apply split_nonempty in Hs.
Qed.

Lemma case_mapping_facts (c : ascii) :
  Ascii.eqb (upper_char c) "-" = Ascii.eqb c "-" /\
  Ascii.eqb (lower_char c) "-" = Ascii.eqb c "-" /\
  upper_char (upper_char c) = upper_char c /\
  lower_char (upper_char c) = lower_char c /\
  upper_char (lower_char c) = upper_char c /\
  lower_char (lower_char c) = lower_char c.
Proof.
  destruct c as [[] [] [] [] [] [] [] []]; vm_compute; repeat split.
Qed.

Lemma title_case_length (b : bool) (s : text) :
  List.length (title_case b s) = List.length s.
Proof.
  revert b; induction s as [|c s IH]; intros b; cbn [title_case]; [reflexivity|].
  destruct (Ascii.eqb c "-"); cbn [List.length]; now rewrite IH.
Qed.

Lemma title_case_no_hyphen (b : bool) (s : text) : ~ In "-"%char (title_case b s).
Proof.
  revert b; induction s as [|c s IH]; intros b; cbn [title_case]; [now intros []|].
  destruct (case_mapping_facts c) as (Hu & Hl & _).
  destruct (Ascii.eqb c "-") eqn:E.
  - intros [H|H]; [discriminate|now apply IH in H].
  - intros [H|H]; [|now apply IH in H].
    destruct b; [rewrite H, Ascii.eqb_refl in Hu|rewrite H, Ascii.eqb_refl in Hl];
      discriminate.
Qed.

Lemma title_case_ignores_case (b : bool) (s : text) :
  title_case b (toUpperCase s) = title_case b s /\
  title_case b (toLowerCase s) = title_case b s.
Proof.
  unfold toUpperCase, toLowerCase.
  revert b; induction s as [|c s IH]; intros b; [now split|].
  cbn [map title_case].
  destruct (case_mapping_facts c) as (Hu & Hl & Huu & Hlu & Hul & Hll).
  rewrite Hu, Hl, Huu, Hlu, Hul, Hll.
  destruct (Ascii.eqb c "-").
  - destruct (IH true) as [-> ->]. now split.
  - destruct (IH false) as [-> ->]. now split.
Qed.

(** X8.  The fallback title has exactly as many characters as the slug:
    each hyphen gives one space, also at the ends and when doubled, and
    each other character gives one character. *)
Theorem fallback_title_keeps_length (slug : text) :
  List.length (fallback_title slug) = List.length slug.
Proof. rewrite fallback_title_title_case. apply title_case_length. Qed.

(** X9.  No hyphen is left in the fallback title. *)
Theorem fallback_title_has_no_hyphen (slug : text) :
  ~ In "-"%char (fallback_title slug).
Proof. rewrite fallback_title_title_case. apply title_case_no_hyphen. Qed.

(** X10.  The fallback title does not depend on the letter case of the
    slug: the slug upper-cased or lower-cased gives the same title. *)
Theorem fallback_title_ignores_case (slug : text) :
  fallback_title (toUpperCase slug) = fallback_title slug /\
  fallback_title (toLowerCase slug) = fallback_title slug.
Proof. rewrite !fallback_title_title_case. apply title_case_ignores_case. Qed.

(** X11.  For a slug made of words joined by hyphens, none of the words
    holding a hyphen, the fallback title is the words joined by single
    spaces, each with its first letter upper-cased and its other letters
    lower-cased; empty words stay in place. *)
Theorem fallback_title_of_words (words : list text) :
  words <> [] ->
  Forall (fun w => ~ In "-"%char w) words ->
  fallback_title (join (lit "-") words) = join (lit " ") (map capitalize words) /\
  forall c w, capitalize (c :: w) = upper_char c :: toLowerCase w.
Proof.
  intros Hne Hw. split; [|reflexivity].
  unfold fallback_title. change (lit "-") with ["-"%char].
  now rewrite (split_join "-" words Hne Hw).
Qed.

Lemma fallback_title_of_words_witness :
  fallback_title (lit "network-protocols") =
  join (lit " ") (map capitalize [lit "network"; lit "protocols"]).
Proof.
  refine (proj1 (fallback_title_of_words [lit "network"; lit "protocols"] _ _)).
  - discriminate.
  - repeat constructor; intros H; vm_compute in H; intuition discriminate.
Defined.

(** X12.  Different segments never share a URL: the profile image URL
    determines the username, and the concept image URL (whatever the
    service answered) and the concept-data URL each determine the slug. *)
Theorem derived_urls_are_injective (x y : text) :
  (pageImageUrl (user_page x) = pageImageUrl (user_page y) -> x = y) /\
  (forall e e' s s' s1 s2 p q,
      concept_page e x s = (s1, inr p) -> concept_page e' y s' = (s2, inr q) ->
      pageImageUrl p = pageImageUrl q -> x = y) /\
  (concept_data_url x = concept_data_url y -> x = y).
Proof.
  split; [|split].
  - cbn [user_page pageImageUrl]. unfold Str. now intros [= H].
  - intros e e' s s' s1 s2 p q Hp Hq H.
    destruct (concept_page_returns e x s) as (t1 & p1 & Hp1 & Hi1).
    destruct (concept_page_returns e' y s') as (t2 & q2 & Hq2 & Hi2).
    rewrite Hp in Hp1. rewrite Hq in Hq2.
    injection Hp1 as _ <-. injection Hq2 as _ <-.
    rewrite Hi1, Hi2 in H. unfold Str in H. now injection H as H.
  - unfold concept_data_url. apply app_inv_head.
Qed.
